(** * Boole's elective equations: a shallow embedding of [booles-logic.ipynb]

    The notebook implements elective functions (expressions over elective
    symbols), a small recursive-descent parser, the normal form of an elective
    equation (its table of moduli), the conjunction of two equations and the
    elimination of a symbol.  Each Python function is translated below under
    its own name; Python exceptions become the [Raise] outcome of [result]. *)

From Equations Require Import Equations.
From Stdlib Require Import String Ascii ZArith List Lia DecimalString.
From stdpp Require Import base option list gmap strings.

Local Open Scope string_scope.
Local Open Scope Z_scope.
Local Open Scope list_scope.

#[local] Arguments String.append !s1 s2 : simpl nomatch.

(** ** Python exceptions and the result of a call *)

(** The built-in exceptions the notebook's code can raise. *)
Inductive exn : Set :=
| IndexError      (* [s[0]] on an empty string, [pop] out of range *)
| ValueError      (* [raise ValueError("Cannot parse ...")], [list.index] *)
| AssertionError  (* a failed [assert] *)
| TypeError       (* [None + 1] *)
| KeyError.       (* a dictionary lookup of an absent key *)

Inductive result (A : Type) : Type :=
| Ok (a : A)
| Raise (e : exn).
Arguments Ok {A} a.
Arguments Raise {A} e.

#[global] Instance exn_eq_dec : EqDecision exn.
Proof. solve_decision. Defined.

#[global] Instance result_ret : MRet result := @Ok.
#[global] Instance result_bind : MBind result := fun A B f m =>
  match m with
  | Ok a => f a
  | Raise e => Raise e
  end.
#[global] Instance result_fmap : FMap result := fun A B f m =>
  match m with
  | Ok a => Ok (f a)
  | Raise e => Raise e
  end.

(** ** Strings: the slices the parser takes *)

Module Str.

(** [s[n:]] *)
Fixpoint drop (n : nat) (s : string) : string :=
  match n, s with
  | O, _ => s
  | S n', String _ s' => drop n' s'
  | S _, EmptyString => EmptyString
  end.

(** [s[:n]] *)
Fixpoint take (n : nat) (s : string) : string :=
  match n, s with
  | S n', String c s' => String c (take n' s')
  | _, _ => EmptyString
  end.

(** [s[a:b]] for non-negative [a] and [b]; [s[a:None]] is [s[a:]]. *)
Definition slice (a : nat) (b : option nat) (s : string) : string :=
  match b with
  | Some b => take (b - a) (drop a s)
  | None => drop a s
  end.

(** [sep.join(l)] *)
Fixpoint join (sep : string) (l : list string) : string :=
  match l with
  | [] => ""
  | [x] => x
  | x :: l' => x +:+ sep +:+ join sep l'
  end.

(** The lengths of the slices, for the termination of [parse]. *)
Lemma length_drop n s : String.length (drop n s) = (String.length s - n)%nat.
Proof.
  revert s; induction n as [|n IH]; intros [|c s]; simpl; auto.
Qed.

Lemma length_take n s : String.length (take n s) = Nat.min n (String.length s).
Proof.
  revert s; induction n as [|n IH]; intros [|c s]; simpl; auto.
Qed.

Lemma length_slice a b s :
  (String.length (slice a b s) <= String.length s - a)%nat.
Proof.
  destruct b as [b|]; unfold slice;
    rewrite ?length_take, length_drop; lia.
Qed.

End Str.

(** ** Elective functions *)

(** [Symbol = str] *)
Definition Symbol : Set := string.

(** [SymbolValues = Dict[Symbol, int]] *)
Abbreviation SymbolValues := (gmap string Z).

(** The class [Function] and its four subclasses. *)
Inductive Function : Set :=
| SymbolFunction (symbol : Symbol)
| MultiplicationFunction (left right : Function)
| NegationFunction (body : Function)
| ConstantFunction (value : Z).

(** [f"{value}"] for a Python [int]. *)
Definition str_of_int (z : Z) : string :=
  NilZero.string_of_int (Z.to_int z).

(** [Function.__repr__] *)
Fixpoint repr (f : Function) : string :=
  match f with
  | SymbolFunction symbol => symbol
  | MultiplicationFunction l r => repr l +:+ repr r
  | NegationFunction body => "(1-" +:+ repr body +:+ ")"
  | ConstantFunction value => str_of_int value
  end.

(** [Function.__call__]; [values[self.symbol]] raises [KeyError] when the
    symbol has no value. *)
Fixpoint call (f : Function) (values : SymbolValues) : result Z :=
  match f with
  | SymbolFunction symbol =>
      match values !! symbol with
      | Some v => Ok v
      | None => Raise KeyError
      end
  | MultiplicationFunction l r =>
      a ← call l values; b ← call r values; Ok (a * b)
  | NegationFunction body =>
      b ← call body values; Ok (1 - b)
  | ConstantFunction value => Ok value
  end.

(** ** The parser *)

(** The loop of [matching_parenthesis], from index [i] with the running
    [count]. Falling off the end returns Python's [None]. *)
Fixpoint matching_parenthesis_from (count : Z) (i : nat) (s : string) : option nat :=
  match s with
  | EmptyString => None
  | String c s' =>
      if Ascii.eqb c "(" then matching_parenthesis_from (count + 1) (S i) s'
      else if Ascii.eqb c ")" then
        if (count - 1 =? 0)%Z then Some i
        else matching_parenthesis_from (count - 1) (S i) s'
      else matching_parenthesis_from count (S i) s'
  end.

Definition matching_parenthesis (s : string) : option nat :=
  matching_parenthesis_from 0 0 s.

(** [re.fullmatch(r"([a-z])", c)] on a one-character string. *)
Definition is_lower (c : ascii) : bool :=
  ((97 <=? nat_of_ascii c) && (nat_of_ascii c <=? 122))%nat.

(** The [len(s) == 1] branch of [parse]. *)
Definition parse_char (c : ascii) : result Function :=
  if is_lower c then Ok (SymbolFunction (String c ""))
  else if Ascii.eqb c "0" then Ok (ConstantFunction 0)
  else if Ascii.eqb c "1" then Ok (ConstantFunction 1)
  else Raise ValueError.

(** [parse]. The three clauses are [len(s) == 0] (where [s[0]] raises
    [IndexError]), [len(s) == 1] and [len(s) >= 2]. In the last one [first]
    is the pair [(to, res)] after the [if s[0] == "("] statement. *)
Equations? parse (s : string) : result Function by wf (String.length s) lt :=
  parse EmptyString := Raise IndexError;
  parse (String c EmptyString) := parse_char c;
  parse (String c (String c' r)) :=
    let s := String c (String c' r) in
    first ← (if Ascii.eqb c "(" then
               let to := matching_parenthesis s in
               if negb (String.eqb (Str.slice 0 (Some 3%nat) s) "(1-")
               then Raise AssertionError
               else inside ← parse (Str.slice 3 to s);
                    Ok (to, NegationFunction inside)
             else
               res ← parse (Str.slice 0 (Some 1%nat) s);
               Ok (Some 0%nat, res));
    match first.1 with
    | None => Raise TypeError
    | Some to =>
        if (to =? String.length s - 1)%nat then Ok first.2
        else rhs ← parse (Str.drop (to + 1) s);
             Ok (MultiplicationFunction first.2 rhs)
    end.
Proof.
  - rewrite Str.length_drop. simpl. lia.
  - generalize (Str.length_slice 3 to s).
    generalize (String.length (Str.slice 3 to s)). intros n.
    unfold s. cbn [String.length]. lia.
  - simpl. lia.
Qed.

(** ** Python containers *)

(** A [for] loop whose body may raise: the state is threaded through the
    items in order and the first exception ends the loop. *)
Fixpoint for_each {A S : Type} (items : list A) (body : S → A → result S)
    (st : S) : result S :=
  match items with
  | [] => Ok st
  | x :: items' => st' ← body st x; for_each items' body st'
  end.

(** A Python [dict]: keys are unique and iteration follows insertion order,
    so it is kept as the list of its items. *)
Module Dict.
Section Dict.
Context {K V : Type} `{EqDecision K}.

(** [d[k]]; [None] stands for the [KeyError]. *)
Fixpoint get (k : K) (d : list (K * V)) : option V :=
  match d with
  | [] => None
  | (k', v) :: d' => if decide (k' = k) then Some v else get k d'
  end.

(** [k in d] *)
Definition mem (k : K) (d : list (K * V)) : bool :=
  bool_decide (is_Some (get k d)).

(** [d[k] = v]: an existing key keeps its place, a new one goes last. *)
Fixpoint set (k : K) (v : V) (d : list (K * V)) : list (K * V) :=
  match d with
  | [] => [(k, v)]
  | (k', v') :: d' =>
      if decide (k' = k) then (k, v) :: d' else (k', v') :: set k v d'
  end.

(** [d[k]] as a call *)
Definition lookup (k : K) (d : list (K * V)) : result V :=
  match get k d with
  | Some v => Ok v
  | None => Raise KeyError
  end.

(** [d.keys()] *)
Definition keys (d : list (K * V)) : list K := d.*1.
End Dict.

(** [dict(pairs)]: a later pair overrides an earlier one with its key. *)
Definition of_pairs (pairs : list (Symbol * Z)) : gmap string Z :=
  fold_left (fun m p => <[p.1 := p.2]> m) pairs ∅.
End Dict.

(** [itertools.product(pool, repeat=n)]: the tuples in lexicographic order,
    the last position advancing fastest. *)
Fixpoint product {A : Type} (pool : list A) (n : nat) : list (list A) :=
  match n with
  | O => [[]]
  | S n' => x ← pool; (x ::.) <$> product pool n'
  end.

(** [l.index(x)] *)
Fixpoint index {A : Type} `{EqDecision A} (x : A) (l : list A) : result nat :=
  match l with
  | [] => Raise ValueError
  | y :: l' => if decide (y = x) then Ok O else S <$> index x l'
  end.

(** [l.pop(i)] for [i >= 0]: the list left after the removal. *)
Fixpoint pop {A : Type} (i : nat) (l : list A) : result (list A) :=
  match l, i with
  | [], _ => Raise IndexError
  | _ :: l', O => Ok l'
  | y :: l', S i' => (y ::.) <$> pop i' l'
  end.

(** ** Elective equations in normal form *)

(** [class Equation]: the symbols and the moduli, one per tuple of values. *)
Record Equation : Type := mkEquation {
  symbols : list Symbol;
  moduli : list (list Z * Z)
}.

(** The inner loop of [Equation.__repr__]: the term of one tuple of values. *)
Definition repr_term (symbols : list Symbol) (values : list Z) : string :=
  fold_left
    (fun term sv =>
       if (sv.2 =? 1)%Z then term +:+ sv.1
       else term +:+ ("(1-" +:+ sv.1 +:+ ")"))
    (zip symbols values) "".

(** The outer loop of [Equation.__repr__]: the list [terms]. *)
Definition repr_terms (eq : Equation) : list string :=
  fold_left
    (fun terms vm =>
       if negb (vm.2 =? 0)%Z then terms ++ [repr_term (symbols eq) vm.1]
       else terms)
    (moduli eq) [].

(** [Equation.__repr__] *)
Definition Equation_repr (eq : Equation) : string :=
  let terms := repr_terms eq in
  if (length terms =? 0)%nat then "0 = 0"
  else Str.join " + " terms +:+ " = 0".

(** [create_normalized_equation] *)
Definition create_normalized_equation (lhs rhs : Function)
    (symbols : list Symbol) : result Equation :=
  moduli ← for_each (product [0; 1] (length symbols))
    (fun moduli values =>
       let value_map := Dict.of_pairs (zip symbols values) in
       l ← call lhs value_map;
       r ← call rhs value_map;
       if (l - r =? 0)%Z then Ok (Dict.set values 0 moduli)
       else Ok (Dict.set values 1 moduli))
    [];
  Ok (mkEquation symbols moduli).

(** [equation_conjunction]; [or] looks [key] up in [b] only when the
    modulus in [a] is not 1. *)
Definition equation_conjunction (a b : Equation) : result Equation :=
  if negb (bool_decide (symbols a = symbols b)) then Raise AssertionError
  else
    moduli' ← for_each (Dict.keys (moduli a))
      (fun moduli' key =>
         ma ← Dict.lookup key (moduli a);
         if (ma =? 1)%Z then Ok (Dict.set key 1 moduli')
         else
           mb ← Dict.lookup key (moduli b);
           if (mb =? 1)%Z then Ok (Dict.set key 1 moduli')
           else Ok (Dict.set key 0 moduli'))
      [];
    Ok (mkEquation (symbols a) moduli').

(** [eliminate_symbol] *)
Definition eliminate_symbol (eq : Equation) (symbol : Symbol) : result Equation :=
  eliminated_count ← for_each (moduli eq)
    (fun eliminated_count vm =>
       i ← index symbol (symbols eq);
       values2 ← pop i vm.1;
       let eliminated_count :=
         if negb (Dict.mem values2 eliminated_count)
         then Dict.set values2 0 eliminated_count
         else eliminated_count in
       if (vm.2 =? 1)%Z then
         count ← Dict.lookup values2 eliminated_count;
         Ok (Dict.set values2 (count + 1) eliminated_count)
       else Ok eliminated_count)
    [];
  let moduli' :=
    fold_left
      (fun moduli' vc =>
         Dict.set vc.1 (if (vc.2 =? 2)%Z then 1 else 0) moduli')
      eliminated_count [] in
  i ← index symbol (symbols eq);
  symbols2 ← pop i (symbols eq);
  Ok (mkEquation symbols2 moduli').

(** ** The grammar of the surface syntax *)

(** The expressions of the grammar
    [expr := atom | negation | expr expr], [atom := LETTER | DIGIT01]:
    a symbol is one lowercase letter and a constant is 0 or 1. *)
Fixpoint in_grammar (f : Function) : bool :=
  match f with
  | SymbolFunction symbol =>
      match symbol with
      | String c EmptyString => is_lower c
      | _ => false
      end
  | MultiplicationFunction l r => in_grammar l && in_grammar r
  | NegationFunction body => in_grammar body
  | ConstantFunction value => (value =? 0)%Z || (value =? 1)%Z
  end.

(** The running depth of parentheses never drops below zero and ends at
    zero. *)
Fixpoint balanced_from (depth : Z) (s : string) : bool :=
  match s with
  | EmptyString => (depth =? 0)%Z
  | String c s' =>
      if Ascii.eqb c "(" then balanced_from (depth + 1) s'
      else if Ascii.eqb c ")" then (1 <=? depth)%Z && balanced_from (depth - 1) s'
      else balanced_from depth s'
  end.

Definition balanced (s : string) : bool := balanced_from 0 s.

(** [true] on the products, the only expressions that are not a single
    top-level term. *)
Definition is_product (f : Function) : bool :=
  match f with
  | MultiplicationFunction _ _ => true
  | _ => false
  end.

(** [t1 (t2 (... tk))]: the product nested to the right. *)
Fixpoint right_nested (t : Function) (ts : list Function) : Function :=
  match ts with
  | [] => t
  | t' :: ts' => MultiplicationFunction t (right_nested t' ts')
  end.

(** [((t1 t2) ...) tk]: the product nested to the left. *)
Definition left_nested (t : Function) (ts : list Function) : Function :=
  fold_left MultiplicationFunction ts t.

(** The text of a sequence of terms written one after the other. *)
Definition juxtaposed (texts : list string) : string :=
  fold_right String.append "" texts.

(** The symbols that occur in an expression. *)
Fixpoint symbols_of (f : Function) : list Symbol :=
  match f with
  | SymbolFunction symbol => [symbol]
  | MultiplicationFunction l r => symbols_of l ++ symbols_of r
  | NegationFunction body => symbols_of body
  | ConstantFunction _ => []
  end.

(** A tuple of values read as a binary number, first value most
    significant. *)
Definition binary_number (values : list Z) : Z :=
  fold_left (λ acc b, 2 * acc + b) values 0.

(** The modulus the loop of [create_normalized_equation] stores for one
    tuple of values. *)
Definition modulus_at (lhs rhs : Function) (symbols : list Symbol)
    (values : list Z) : result Z :=
  let value_map := Dict.of_pairs (zip symbols values) in
  l ← call lhs value_map;
  r ← call rhs value_map;
  Ok (if (l - r =? 0)%Z then 0 else 1).

(** ** The invariant of an equation *)

(** The table has one entry for each of the [2^n] tuples of values, none
    missing and none extra. *)
Definition exhaustive (eq : Equation) : Prop :=
  Dict.keys (moduli eq) ≡ₚ product [0; 1] (length (symbols eq)).

(** The entries follow the order of the enumeration. *)
Definition enumerated (eq : Equation) : Prop :=
  Dict.keys (moduli eq) = product [0; 1] (length (symbols eq)).

(** Every modulus is 0 or 1. *)
Definition boolean_moduli (eq : Equation) : Prop :=
  Forall (λ m, m = 0 ∨ m = 1) (moduli eq).*2.

(** The equation forbids a tuple of values. *)
Definition forbids (eq : Equation) (values : list Z) : Prop :=
  Dict.get values (moduli eq) = Some 1.

(** Equality of two equations as values: the same symbols and the same
    modulus for every tuple of values. *)
Definition Equation_eq (a b : Equation) : Prop :=
  symbols a = symbols b
  ∧ ∀ values, Dict.get values (moduli a) = Dict.get values (moduli b).

(** The modulus [equation_conjunction] stores for [key]. *)
Definition either (a b : Equation) (key : list Z) : Z :=
  if (default 0 (Dict.get key (moduli a)) =? 1)
     || (default 0 (Dict.get key (moduli b)) =? 1)
  then 1 else 0.

(** The invariant of the data model: an exhaustive table of 0/1 moduli. *)
Definition Equation_inv (eq : Equation) : Prop :=
  exhaustive eq ∧ boolean_moduli eq.

#[global] Instance forbids_dec eq values : Decision (forbids eq values).
Proof. unfold forbids. apply _. Defined.

(** ** The rendering of the specification *)

(** The rendering of an equation as the specification words it: one piece
    per symbol, the letter for the value 1 and its negation for the
    value 0. *)
Definition render_piece (symbol : Symbol) (value : Z) : string :=
  if decide (value = 1) then symbol
  else if decide (value = 0) then "(1-" +:+ symbol +:+ ")"
  else "".

(** The pieces of one assignment, in the order of the symbols, with no
    separator. *)
Definition render_term (variables : list Symbol) (values : list Z) : string :=
  fold_right (λ sv term, render_piece sv.1 sv.2 +:+ term) ""
    (zip variables values).

(** One term per forbidden assignment, in the order of the enumeration,
    joined with [" + "] and followed by [" = 0"]; ["0 = 0"] when no
    assignment is forbidden. *)
Definition render_Equation (eq : Equation) : string :=
  let forbidden :=
    filter (forbids eq) (product [0; 1] (length (symbols eq))) in
  match forbidden with
  | [] => "0 = 0"
  | _ => Str.join " + " (render_term (symbols eq) <$> forbidden) +:+ " = 0"
  end.

(** ** The loops of the eliminator *)

(** An assignment of the remaining symbols completed with the value [b] of
    the eliminated symbol at position [k]. *)
Definition completion (k : nat) (b : Z) (values2 : list Z) : list Z :=
  take k values2 ++ b :: drop k values2.

(** One turn of the first loop of [eliminate_symbol], for the position [k]
    of the symbol. *)
Definition count_step (k : nat) (eliminated_count : list (list Z * Z))
    (vm : list Z * Z) : list (list Z * Z) :=
  let values2 := delete k vm.1 in
  let eliminated_count :=
    if negb (Dict.mem values2 eliminated_count)
    then Dict.set values2 0 eliminated_count
    else eliminated_count in
  if (vm.2 =? 1)%Z then
    Dict.set values2 (default 0 (Dict.get values2 eliminated_count) + 1)
      eliminated_count
  else eliminated_count.

(** How many of the entries that project on [values2] have modulus 1. *)
Definition tally (k : nat) (ms : list (list Z * Z)) (values2 : list Z) : Z :=
  Z.of_nat (length (filter (λ vm, delete k vm.1 = values2 ∧ vm.2 = 1) ms)).

(** The dictionary after the [if values2 not in eliminated_count]
    statement. *)
Definition with_key (values2 : list Z) (ec : list (list Z * Z))
    : list (list Z * Z) :=
  if negb (Dict.mem values2 ec) then Dict.set values2 0 ec else ec.

(** Every ["("] of the text is followed by ["1-"]. *)
Fixpoint negations_only (s : string) : bool :=
  match s with
  | EmptyString => true
  | String c s' =>
      (if Ascii.eqb c "(" then String.prefix "1-" s' else true)
      && negations_only s'
  end.

(** The elements of [l] that are not in [seen], each at its first
    occurrence: the keys a loop adds to a dictionary that has the keys
    [seen]. *)
Fixpoint news {A} `{EqDecision A} (seen l : list A) : list A :=
  match l with
  | [] => []
  | x :: l' =>
      if decide (x ∈ seen) then news seen l' else x :: news (seen ++ [x]) l'
  end.

(** ** Some equations of the notebook *)

(** The conjunction of the two premises of the Barbara syllogism, as the
    notebook prints it:
    [(1-x)(1-y)z + (1-x)y(1-z) + (1-x)yz + x(1-y)z = 0]. *)
Definition barbara_conclusion : Equation :=
  mkEquation ["x"; "y"; "z"]
    [([0; 0; 0], 0); ([0; 0; 1], 1); ([0; 1; 0], 1); ([0; 1; 1], 1);
     ([1; 0; 0], 0); ([1; 0; 1], 1); ([1; 1; 0], 0); ([1; 1; 1], 0)].

(** [x = 0], [x(1-x) = 0] and [1-x = 0] over the single symbol [x]. *)
Definition no_xs : Equation := mkEquation ["x"] [([0], 0); ([1], 1)].
Definition tautology_x : Equation := mkEquation ["x"] [([0], 0); ([1], 0)].
Definition all_xs : Equation := mkEquation ["x"] [([0], 1); ([1], 0)].

(** ** Re-association of products *)

(** The product of a list of terms, nested to the right. *)
Definition nest (ts : list Function) : Function :=
  match ts with
  | [] => ConstantFunction 0
  | t :: ts' => right_nested t ts'
  end.

(** The top-level terms of an expression, in the order of its text, the
    bodies of its negations re-associated as well. *)
Fixpoint top_terms (f : Function) : list Function :=
  match f with
  | MultiplicationFunction l r => top_terms l ++ top_terms r
  | NegationFunction body => [NegationFunction (nest (top_terms body))]
  | _ => [f]
  end.

(** The expression with every product nested to the right. *)
Definition reassociate (f : Function) : Function := nest (top_terms f).

(** ** The terms of a rendering as expressions *)

(** The expression written by one piece of a term of [Equation.__repr__]:
    the symbol for the value 1, its negation otherwise. *)
Definition literal (symbol : Symbol) (value : Z) : Function :=
  if (value =? 1)%Z then SymbolFunction symbol
  else NegationFunction (SymbolFunction symbol).

(** The product of the literals of an assignment, nested to the right. *)
Definition minterm (variables : list Symbol) (values : list Z) : Function :=
  nest (zip_with literal variables values).

(** * Properties of the slices *)

Module StrFacts.

Lemma app_nil_r s : s +:+ "" = s.
Proof. induction s as [|c s IH]; simpl; congruence. Qed.

Lemma app_assoc s1 s2 s3 : (s1 +:+ s2) +:+ s3 = s1 +:+ (s2 +:+ s3).
Proof. induction s1 as [|c s1 IH]; simpl; congruence. Qed.

Lemma length_app s1 s2 :
  String.length (s1 +:+ s2) = (String.length s1 + String.length s2)%nat.
Proof. induction s1 as [|c s1 IH]; simpl; congruence. Qed.

Lemma length_zero s : String.length s = 0%nat → s = "".
Proof. destruct s; [reflexivity | discriminate]. Qed.

Lemma take_drop n s : Str.take n s +:+ Str.drop n s = s.
Proof.
  revert s; induction n as [|n IH]; intros [|c s]; simpl; auto.
  now rewrite IH.
Qed.

Lemma take_app_length s1 s2 : Str.take (String.length s1) (s1 +:+ s2) = s1.
Proof. induction s1 as [|c s1 IH]; simpl; [now destruct s2 | congruence]. Qed.

Lemma drop_app_length s1 s2 n :
  Str.drop (String.length s1 + n) (s1 +:+ s2) = Str.drop n s2.
Proof. induction s1 as [|c s1 IH]; simpl; auto. Qed.

Lemma drop_all s n : (String.length s <= n)%nat → Str.drop n s = "".
Proof.
  revert s; induction n as [|n IH]; intros [|c s]; simpl; auto; try lia.
  intros H. apply IH. lia.
Qed.

Lemma take_app_le s1 s2 n :
  (n <= String.length s1)%nat → Str.take n (s1 +:+ s2) = Str.take n s1.
Proof.
  revert s1; induction n as [|n IH]; intros [|c s1]; simpl; auto; try lia.
  intros H. rewrite IH; [reflexivity | lia].
Qed.

Lemma drop_app_le s1 s2 n :
  (n <= String.length s1)%nat → Str.drop n (s1 +:+ s2) = Str.drop n s1 +:+ s2.
Proof.
  revert s1; induction n as [|n IH]; intros [|c s1]; simpl; auto; try lia.
  intros H. apply IH. lia.
Qed.

End StrFacts.

(** * Properties of the parser *)

Section ParserFacts.

Lemma bind_Ok {A B} (m : result A) (f : A → result B) (b : B) :
  m ≫= f = Ok b → ∃ a, m = Ok a ∧ f a = Ok b.
Proof. destruct m as [a|e]; simpl; [eauto | discriminate]. Qed.

Lemma is_lower_not_paren c :
  is_lower c = true → Ascii.eqb c "(" = false ∧ Ascii.eqb c ")" = false.
Proof.
  intros H; split; apply Ascii.eqb_neq; intros ->; discriminate H.
Qed.

Lemma parse_char_sound c e :
  parse_char c = Ok e → repr e = String c "" ∧ in_grammar e = true.
Proof.
  unfold parse_char. destruct (is_lower c) eqn:Hl.
  - intros [= <-]. simpl. auto.
  - destruct (Ascii.eqb_spec c "0") as [->|_]; [intros [= <-]; auto|].
    destruct (Ascii.eqb_spec c "1") as [->|_]; [intros [= <-]; auto|].
    discriminate.
Qed.

Lemma parse_char_not_paren c e :
  parse_char c = Ok e → Ascii.eqb c "(" = false ∧ Ascii.eqb c ")" = false.
Proof.
  unfold parse_char. destruct (is_lower c) eqn:Hl.
  - intros _. now apply is_lower_not_paren.
  - destruct (Ascii.eqb_spec c "0") as [->|_]; [auto|].
    destruct (Ascii.eqb_spec c "1") as [->|_]; [auto|].
    discriminate.
Qed.

(** What [matching_parenthesis] returns is the index of a [")"]. *)
Lemma matching_parenthesis_from_Some s : ∀ count i to,
  matching_parenthesis_from count i s = Some to →
  ∃ k, to = (i + k)%nat ∧ Str.drop k s = String ")" (Str.drop (S k) s).
Proof.
  induction s as [|c s IH]; intros count i to; simpl; [discriminate|].
  destruct (Ascii.eqb_spec c "(") as [->|Hopen].
  - intros H. apply IH in H as (k & -> & Hk).
    exists (S k). split; [lia | exact Hk].
  - destruct (Ascii.eqb_spec c ")") as [->|Hclose].
    + destruct (count - 1 =? 0)%Z.
      * intros [= <-]. exists 0%nat. split; [lia | reflexivity].
      * intros H. apply IH in H as (k & -> & Hk).
        exists (S k). split; [lia | exact Hk].
    + intros H. apply IH in H as (k & -> & Hk).
      exists (S k). split; [lia | exact Hk].
Qed.

(** More text after the match does not move it. *)
Lemma matching_parenthesis_from_app s rest : ∀ count i to,
  matching_parenthesis_from count i s = Some to →
  matching_parenthesis_from count i (s +:+ rest) = Some to.
Proof.
  induction s as [|c s IH]; intros count i to; simpl; [discriminate|].
  destruct (Ascii.eqb c "("); [apply IH|].
  destruct (Ascii.eqb c ")"); [|apply IH].
  destruct (count - 1 =? 0)%Z; [auto | apply IH].
Qed.

End ParserFacts.

Section ParserSound.

Lemma take_S_drop k : ∀ s a t,
  Str.drop k s = String a t →
  Str.take (S k) s = Str.take k s +:+ String a "".
Proof.
  induction k as [|k IH]; intros [|c s] a t; simpl; try discriminate.
  - intros [= -> ->]. now destruct t.
  - intros H. now rewrite <- (IH _ _ _ H).
Qed.

Lemma take_all s n : (String.length s <= n)%nat → Str.take n s = s.
Proof.
  intros H. rewrite <- (StrFacts.take_drop n s) at 2.
  now rewrite (StrFacts.drop_all s n H), StrFacts.app_nil_r.
Qed.

(** The end of [parse]: [res] is the first term, read up to index [to]. *)
Lemma parse_rest_sound s (to : nat) res e :
  (∀ s' e', (String.length s' < String.length s)%nat →
            parse s' = Ok e' → repr e' = s' ∧ in_grammar e' = true) →
  (0 < String.length s)%nat →
  repr res = Str.take (to + 1) s → in_grammar res = true →
  (if (to =? String.length s - 1)%nat then Ok res
   else parse (Str.drop (to + 1) s)
        ≫= λ rhs, Ok (MultiplicationFunction res rhs)) = Ok e →
  repr e = s ∧ in_grammar e = true.
Proof.
  intros IH Hpos Hres Hg.
  destruct (Nat.eqb_spec to (String.length s - 1)) as [->|Hne].
  - intros [= <-]. split; [|exact Hg].
    rewrite Hres. apply take_all. lia.
  - intros H. apply bind_Ok in H as (rhs & Hrhs & [= <-]).
    apply IH in Hrhs as [Hr Hgr]; [|rewrite Str.length_drop; lia].
    simpl. rewrite Hres, Hr, Hg, Hgr.
    split; [apply StrFacts.take_drop | reflexivity].
Qed.

(** Whatever [parse] accepts is the text of the expression it returns, and
    that expression is in the grammar. *)
Lemma parse_sound_below n : ∀ s e,
  (String.length s < n)%nat → parse s = Ok e →
  repr e = s ∧ in_grammar e = true.
Proof.
  induction n as [|n IH]; intros s e Hlen Hp; [lia|].
  destruct s as [|c [|c' r]].
  - rewrite parse_equation_1 in Hp. discriminate.
  - rewrite parse_equation_2 in Hp. now apply parse_char_sound.
  - rewrite parse_equation_3 in Hp. cbv zeta in Hp.
    apply bind_Ok in Hp as ([to res] & Hfirst & Hrest).
    cbn [fst snd] in Hrest.
    destruct to as [to|]; [|discriminate].
    assert (IH' : ∀ s' e', (String.length s' < String.length (String c (String c' r)))%nat →
              parse s' = Ok e' → repr e' = s' ∧ in_grammar e' = true).
    { intros s' e' Hs'. apply IH. lia. }
    destruct (Ascii.eqb_spec c "(") as [->|Hc].
    + destruct (String.eqb_spec
                  (Str.slice 0 (Some 3%nat) (String "(" (String c' r))) "(1-")
        as [Hpre|_]; [|discriminate].
      cbn [negb] in Hfirst.
      apply bind_Ok in Hfirst as (inside & Hin & [= Hto <-]).
      destruct r as [|c'' r2]; [discriminate|].
      simpl in Hpre. injection Hpre as -> ->.
      rewrite Hto in Hin.
      unfold matching_parenthesis in Hto. simpl in Hto.
      apply matching_parenthesis_from_Some in Hto as (k & -> & Hk).
      unfold Str.slice in Hin.
      replace (3 + k - 3)%nat with k in Hin by lia.
      simpl Str.drop in Hin.
      apply IH' in Hin as [Hin Hgin];
        [|rewrite Str.length_take; simpl; lia].
      apply (parse_rest_sound _ (3 + k)%nat (NegationFunction inside) e IH');
        [simpl; lia | | exact Hgin | exact Hrest].
      replace (3 + k + 1)%nat with (S (S (S (S k)))) by lia.
      change (Str.take (S (S (S (S k)))) (String "(" (String "1" (String "-" r2))))
        with (String "(" (String "1" (String "-" (Str.take (S k) r2)))).
      cbn [repr]. rewrite Hin, (take_S_drop _ _ _ _ Hk). reflexivity.
    + apply bind_Ok in Hfirst as (res' & Hres & [= <- <-]).
      simpl in Hres. rewrite parse_equation_2 in Hres.
      apply parse_char_sound in Hres as [Hres Hg].
      apply (parse_rest_sound _ 0%nat res' e IH');
        [simpl; lia | exact Hres | exact Hg | exact Hrest].
Qed.

Lemma parse_sound s e :
  parse s = Ok e → repr e = s ∧ in_grammar e = true.
Proof. apply (parse_sound_below (S (String.length s))). lia. Qed.

End ParserSound.

Section ParserComplete.

Lemma parse_nonempty s e : parse s = Ok e → (0 < String.length s)%nat.
Proof.
  destruct s; [rewrite parse_equation_1; discriminate | simpl; lia].
Qed.

(** A first term [t] followed by a text [rest] that parses: the result is
    the product of the two, the second factor being all of [rest]. *)
Lemma parse_term_app t e rest e2 :
  parse t = Ok e → is_product e = false → parse rest = Ok e2 →
  parse (t +:+ rest) = Ok (MultiplicationFunction e e2).
Proof.
  intros Ht Hterm Hrest.
  pose proof (parse_nonempty _ _ Hrest) as Hlen.
  destruct t as [|c [|c' r]].
  - rewrite parse_equation_1 in Ht. discriminate.
  - rewrite parse_equation_2 in Ht.
    destruct rest as [|c' r]; [simpl in Hlen; lia|].
    simpl. rewrite parse_equation_3. cbv zeta.
    destruct (parse_char_not_paren _ _ Ht) as [-> _].
    simpl. rewrite parse_equation_2, Ht. simpl.
    now rewrite Hrest.
  - rewrite parse_equation_3 in Ht. cbv zeta in Ht.
    apply bind_Ok in Ht as ([to res] & Hfirst & Hend).
    cbn [fst snd] in Hend.
    destruct to as [to|]; [|discriminate].
    destruct (Nat.eqb_spec to (String.length (String c (String c' r)) - 1))
      as [Hto|Hto].
    2:{ apply bind_Ok in Hend as (rhs & _ & [= <-]). discriminate. }
    injection Hend as <-.
    destruct (Ascii.eqb_spec c "(") as [->|Hc].
    2:{ apply bind_Ok in Hfirst as (? & _ & [= <- _]). simpl in Hto. lia. }
    destruct (String.eqb_spec
                (Str.slice 0 (Some 3%nat) (String "(" (String c' r))) "(1-")
      as [Hpre|_]; [|discriminate].
    cbn [negb] in Hfirst.
    apply bind_Ok in Hfirst as (inside & Hin & [= Hmp <-]).
    rewrite Hmp in Hin.
    destruct r as [|c'' r2]; [discriminate|].
    simpl in Hpre. injection Hpre as -> ->.
    assert (Hto' : to = (2 + String.length r2)%nat) by (simpl in Hto; lia).
    clear Hto.
    set (t := String "(" (String "1" (String "-" r2))) in *.
    assert (Hmp' : matching_parenthesis (t +:+ rest) = Some to)
      by (apply matching_parenthesis_from_app, Hmp).
    assert (Hlt : (String.length t = to + 1)%nat)
      by (subst t; simpl; lia).
    change (t +:+ rest)
      with (String "(" (String "1" (String "-" (r2 +:+ rest)))) at 1.
    rewrite parse_equation_3. cbv zeta.
    change (String "(" (String "1" (String "-" (r2 +:+ rest))))
      with (t +:+ rest).
    rewrite Hmp'.
    assert (Hslice : Str.slice 3 (Some to) (t +:+ rest) = Str.slice 3 (Some to) t).
    { unfold Str.slice. rewrite StrFacts.drop_app_le by lia.
      apply StrFacts.take_app_le. rewrite Str.length_drop. lia. }
    rewrite Hslice, Hin.
    cbn [Ascii.eqb Bool.eqb]. simpl.
    replace (to =? _)%nat with false.
    2:{ symmetry. apply Nat.eqb_neq.
        generalize (StrFacts.length_app r2 rest). lia. }
    change (String "(" (String "1" (String "-" (r2 +:+ rest))))
      with (t +:+ rest).
    replace (to + 1)%nat with (String.length t + 0)%nat by lia.
    rewrite (StrFacts.drop_app_length t rest 0). simpl. now rewrite Hrest.
Qed.

Lemma in_grammar_constant value :
  in_grammar (ConstantFunction value) = true → value = 0 ∨ value = 1.
Proof. simpl. lia. Qed.

Lemma in_grammar_symbol symbol :
  in_grammar (SymbolFunction symbol) = true →
  ∃ c, symbol = String c "" ∧ is_lower c = true.
Proof. destruct symbol as [|c [|? ?]]; simpl; try discriminate. eauto. Qed.

(** An expression of the grammar renders as one character exactly when it
    is an atom, and [parse_char] reads it back. *)
Lemma parse_char_atom e :
  in_grammar e = true →
  match e with
  | SymbolFunction _ | ConstantFunction _ =>
      ∃ c, repr e = String c "" ∧ parse_char c = Ok e
  | _ => True
  end.
Proof.
  destruct e as [symbol| | |value]; intros Hg; trivial.
  - apply in_grammar_symbol in Hg as (c & -> & Hc).
    exists c. unfold parse_char. now rewrite Hc.
  - apply in_grammar_constant in Hg as [-> | ->];
      [exists "0"%char | exists "1"%char]; split; reflexivity.
Qed.

(** Inside the text of an expression the count of open parentheses never
    comes back to zero, so the scan runs through it. *)
Lemma matching_parenthesis_from_repr e :
  in_grammar e = true → ∀ count i rest, 1 <= count →
  matching_parenthesis_from count i (repr e +:+ rest)
  = matching_parenthesis_from count (i + String.length (repr e)) rest.
Proof.
  induction e as [symbol|l IHl r IHr|body IH|value];
    intros Hg count i rest Hcount.
  - apply in_grammar_symbol in Hg as (c & -> & Hc).
    destruct (is_lower_not_paren _ Hc) as [Ho Hcl].
    simpl. rewrite Ho, Hcl. f_equal. lia.
  - simpl in Hg. apply andb_prop in Hg as [Hl Hr].
    simpl. rewrite StrFacts.app_assoc, IHl, IHr, StrFacts.length_app by assumption.
    f_equal. lia.
  - simpl in Hg. simpl.
    rewrite StrFacts.app_assoc, IH by (assumption || lia).
    simpl. replace (count + 1 - 1 =? 0) with false by lia.
    rewrite StrFacts.length_app. simpl. f_equal; lia.
  - apply in_grammar_constant in Hg as [-> | ->]; simpl; f_equal; lia.
Qed.

(** The text of a negation parses to a negation. *)
Lemma parse_repr_negation body body' :
  in_grammar body = true →
  parse (repr body) = Ok body' →
  parse (repr (NegationFunction body)) = Ok (NegationFunction body').
Proof.
  intros Hg Hbody. simpl. rewrite parse_equation_3. cbv zeta.
  set (s := String "(" (String "1" (String "-" (repr body +:+ ")")))).
  assert (Hmp : matching_parenthesis s = Some (3 + String.length (repr body))%nat).
  { unfold matching_parenthesis, s. simpl.
    rewrite matching_parenthesis_from_repr by (assumption || lia).
    reflexivity. }
  rewrite Hmp.
  assert (Hslice : Str.slice 3 (Some (3 + String.length (repr body))%nat) s
                   = repr body).
  { unfold Str.slice, s.
    replace (3 + String.length (repr body) - 3)%nat
      with (String.length (repr body)) by lia.
    simpl. apply StrFacts.take_app_length. }
  assert (Hpre : Str.slice 0 (Some 3%nat) s = "(1-") by reflexivity.
  assert (Hlen : (String.length s - 1 = 3 + String.length (repr body))%nat).
  { unfold s. simpl. rewrite StrFacts.length_app. simpl. lia. }
  rewrite Hslice, Hbody, Hpre, Hlen, String.eqb_refl.
  change (Ascii.eqb "(" "(") with true.
  cbn [mbind result_bind fst snd negb]. now rewrite Nat.eqb_refl.
Qed.

(** Parsing the text of an expression of the grammar, possibly followed by
    a text that itself parses to its own text. *)
Lemma parse_repr_app e :
  in_grammar e = true → ∀ rest,
  (rest = "" ∨ ∃ e2, parse rest = Ok e2 ∧ repr e2 = rest) →
  ∃ e', parse (repr e +:+ rest) = Ok e' ∧ repr e' = repr e +:+ rest.
Proof.
  assert (Hterm : ∀ t e1, parse t = Ok e1 → repr e1 = t →
            is_product e1 = false → ∀ rest,
            (rest = "" ∨ ∃ e2, parse rest = Ok e2 ∧ repr e2 = rest) →
            ∃ e', parse (t +:+ rest) = Ok e' ∧ repr e' = t +:+ rest).
  { intros t e1 Ht Hr Hp rest [-> | (e2 & He2 & Hr2)].
    - rewrite StrFacts.app_nil_r. eauto.
    - exists (MultiplicationFunction e1 e2).
      split; [apply parse_term_app; assumption|].
      simpl. now rewrite Hr, Hr2. }
  induction e as [symbol|l IHl r IHr|body IH|value]; intros Hg rest Hrest.
  - destruct (parse_char_atom _ Hg) as (c & Hc & Hp).
    apply Hterm with (e1 := SymbolFunction symbol); auto.
    rewrite Hc. now rewrite parse_equation_2.
  - simpl in Hg. apply andb_prop in Hg as [Hl Hr].
    simpl. rewrite StrFacts.app_assoc.
    apply IHl; [assumption|]. right.
    destruct (IHr Hr rest Hrest) as (e2 & He2 & Hr2). eauto.
  - simpl in Hg.
    destruct (IH Hg "" (or_introl eq_refl)) as (body' & Hb & Hrb).
    rewrite StrFacts.app_nil_r in Hb, Hrb.
    apply Hterm with (e1 := NegationFunction body'); auto.
    + now apply parse_repr_negation.
    + simpl. now rewrite Hrb.
  - destruct (parse_char_atom _ Hg) as (c & Hc & Hp).
    apply Hterm with (e1 := ConstantFunction value); auto.
    rewrite Hc. now rewrite parse_equation_2.
Qed.

End ParserComplete.

Section ParserClaims.

(** C5. Round trip: the text of every expression of the grammar parses,
    and the expression parsed renders to the same text:
    [toText(parse(s)) == s] for every [s = toText(e)]. *)
Theorem parse_repr_round_trip (e : Function) :
  in_grammar e = true →
  repr <$> parse (repr e) = Ok (repr e).
Proof.
  intros Hg.
  destruct (parse_repr_app e Hg "" (or_introl eq_refl)) as (e' & Hp & Hr).
  rewrite StrFacts.app_nil_r in Hp, Hr. rewrite Hp. simpl. now rewrite Hr.
Qed.

Lemma parse_repr_round_trip_witness :
  repr <$> parse "(1-x(1-y))z0" = Ok "(1-x(1-y))z0".
Proof.
  apply (parse_repr_round_trip
           (MultiplicationFunction
              (MultiplicationFunction
                 (NegationFunction
                    (MultiplicationFunction (SymbolFunction "x")
                       (NegationFunction (SymbolFunction "y"))))
                 (SymbolFunction "z"))
              (ConstantFunction 0))).
  reflexivity.
Defined.

(** C7 as stated fails: ["xyz"] does not parse to the product nested to
    the left. *)
Lemma parse_xyz_not_left_nested :
  parse "xyz"
  = Ok (MultiplicationFunction (SymbolFunction "x")
          (MultiplicationFunction (SymbolFunction "y") (SymbolFunction "z")))
  ∧ parse "xyz"
    ≠ Ok (left_nested (SymbolFunction "x")
            [SymbolFunction "y"; SymbolFunction "z"]).
Proof. split; [reflexivity | discriminate]. Qed.

(** C7, amended. Juxtaposition parses to the product nested to the right:
    when the texts [t1 ... tk] each parse to one top-level term (an atom or
    a negation), the text [t1 t2 ... tk] parses to
    [Product(t1, Product(t2, ... Product(t(k-1), tk)))]. *)
Theorem parse_juxtaposed_right_nested
    (text : string) (term : Function) (rest : list (string * Function)) :
  parse text = Ok term → is_product term = false →
  Forall (λ te, parse te.1 = Ok te.2 ∧ is_product te.2 = false) rest →
  parse (juxtaposed (text :: rest.*1)) = Ok (right_nested term rest.*2).
Proof.
  intros Hp Ht Hrest. revert text term Hp Ht.
  induction Hrest as [|[text' term'] rest [Hp' Ht'] _ IH];
    intros text term Hp Ht; simpl.
  - now rewrite StrFacts.app_nil_r.
  - apply parse_term_app; [assumption.. |].
    apply (IH text' term' Hp' Ht').
Qed.

Lemma parse_juxtaposed_right_nested_witness :
  parse "x(1-y)z"
  = Ok (MultiplicationFunction (SymbolFunction "x")
          (MultiplicationFunction (NegationFunction (SymbolFunction "y"))
             (SymbolFunction "z"))).
Proof.
  apply (parse_juxtaposed_right_nested "x" (SymbolFunction "x")
           [("(1-y)", NegationFunction (SymbolFunction "y"));
            ("z", SymbolFunction "z")]).
  - reflexivity.
  - reflexivity.
  - repeat constructor.
Defined.

End ParserClaims.

Section ParserErrors.

Lemma balanced_from_repr e :
  in_grammar e = true → ∀ depth rest, 0 <= depth →
  balanced_from depth (repr e +:+ rest) = balanced_from depth rest.
Proof.
  induction e as [symbol|l IHl r IHr|body IH|value];
    intros Hg depth rest Hdepth.
  - apply in_grammar_symbol in Hg as (c & -> & Hc).
    destruct (is_lower_not_paren _ Hc) as [Ho Hcl].
    simpl. now rewrite Ho, Hcl.
  - simpl in Hg. apply andb_prop in Hg as [Hl Hr].
    simpl. now rewrite StrFacts.app_assoc, IHl, IHr.
  - simpl in Hg. simpl.
    rewrite StrFacts.app_assoc, IH by (assumption || lia).
    simpl. replace (1 <=? depth + 1) with true by lia.
    simpl. f_equal. lia.
  - apply in_grammar_constant in Hg as [-> | ->]; reflexivity.
Qed.

(** Only texts with balanced parentheses are accepted. *)
Lemma parse_balanced s e : parse s = Ok e → balanced s = true.
Proof.
  intros Hp. apply parse_sound in Hp as [<- Hg].
  unfold balanced. rewrite <- (StrFacts.app_nil_r (repr e)).
  now rewrite balanced_from_repr.
Qed.

Lemma parse_empty : parse "" = Raise IndexError.
Proof. reflexivity. Qed.

Lemma parse_unrecognized c :
  is_lower c = false → c ≠ "0"%char → c ≠ "1"%char →
  parse (String c "") = Raise ValueError.
Proof.
  intros Hl H0 H1. rewrite parse_equation_2. unfold parse_char.
  rewrite Hl.
  destruct (Ascii.eqb_spec c "0"); [contradiction|].
  destruct (Ascii.eqb_spec c "1"); [contradiction|reflexivity].
Qed.

Lemma parse_bad_prefix c r :
  Str.slice 0 (Some 3%nat) (String "(" (String c r)) ≠ "(1-" →
  parse (String "(" (String c r)) = Raise AssertionError.
Proof.
  intros Hpre. rewrite parse_equation_3. cbv zeta.
  change (Ascii.eqb "(" "(") with true. cbv iota.
  destruct (String.eqb_spec
              (Str.slice 0 (Some 3%nat) (String "(" (String c r))) "(1-");
    [contradiction | reflexivity].
Qed.

Lemma parse_unbalanced s : balanced s = false → ∃ e, parse s = Raise e.
Proof.
  intros Hb. destruct (parse s) as [f|e] eqn:Hp; [|eauto].
  apply parse_balanced in Hp. congruence.
Qed.

End ParserErrors.

(** * Properties of the containers *)

Module DictFacts.
Section DictFacts.
Context {K V : Type} `{EqDecision K}.
Implicit Types (k : K) (v : V) (d : list (K * V)).

Lemma get_None k d : Dict.get k d = None ↔ k ∉ Dict.keys d.
Proof.
  unfold Dict.keys. induction d as [|[k' v'] d IH]; simpl.
  - split; [intros _; apply not_elem_of_nil | done].
  - case_decide as Hk; subst.
    + split; [done | intros []; left].
    + rewrite IH, not_elem_of_cons. intuition congruence.
Qed.

Lemma get_is_Some k d : is_Some (Dict.get k d) ↔ k ∈ Dict.keys d.
Proof.
  rewrite <- not_eq_None_Some, get_None.
  destruct (decide (k ∈ Dict.keys d)); naive_solver.
Qed.

Lemma get_Some_elem k v d : Dict.get k d = Some v → (k, v) ∈ d.
Proof.
  induction d as [|[k' v'] d IH]; simpl; [done|].
  case_decide; subst.
  - intros [= ->]. left.
  - intros H'. right. auto.
Qed.

Lemma elem_get k v d :
  NoDup (Dict.keys d) → (k, v) ∈ d → Dict.get k d = Some v.
Proof.
  unfold Dict.keys.
  induction d as [|[k' v'] d IH]; simpl; [by intros _ ?%elem_of_nil|].
  intros [Hk' Hnd]%NoDup_cons [Heq|Hin]%elem_of_cons.
  - simplify_eq. by rewrite decide_True.
  - case_decide; subst; [|auto].
    exfalso. apply Hk'. apply list_elem_of_fmap. by exists (k, v).
Qed.

Lemma get_set_eq k v d : Dict.get k (Dict.set k v d) = Some v.
Proof.
  induction d as [|[k' v'] d IH]; simpl.
  - by rewrite decide_True.
  - case_decide; simpl; [by rewrite decide_True | by rewrite decide_False].
Qed.

Lemma get_set_ne k k' v d :
  k ≠ k' → Dict.get k' (Dict.set k v d) = Dict.get k' d.
Proof.
  intros Hne. induction d as [|[k0 v0] d IH]; simpl.
  - by rewrite decide_False.
  - case_decide; simpl; subst.
    + by rewrite !decide_False.
    + by rewrite IH.
Qed.

Lemma set_fresh k v d : k ∉ Dict.keys d → Dict.set k v d = d ++ [(k, v)].
Proof.
  unfold Dict.keys. induction d as [|[k' v'] d IH]; simpl; [done|].
  intros [Hne Hnin]%not_elem_of_cons.
  rewrite decide_False by done. by rewrite IH.
Qed.

Lemma keys_set_present k v d :
  k ∈ Dict.keys d → Dict.keys (Dict.set k v d) = Dict.keys d.
Proof.
  unfold Dict.keys. induction d as [|[k' v'] d IH]; simpl.
  - by intros ?%elem_of_nil.
  - case_decide; subst; simpl; [done|].
    intros [?|Hin]%elem_of_cons; [done|]. f_equal. by apply IH.
Qed.

Lemma keys_set_fresh k v d :
  k ∉ Dict.keys d → Dict.keys (Dict.set k v d) = Dict.keys d ++ [k].
Proof.
  intros Hk. rewrite set_fresh by done.
  unfold Dict.keys. by rewrite fmap_app.
Qed.

Lemma mem_true k d : Dict.mem k d = true ↔ k ∈ Dict.keys d.
Proof. unfold Dict.mem. by rewrite bool_decide_eq_true, get_is_Some. Qed.

Lemma mem_false k d : Dict.mem k d = false ↔ k ∉ Dict.keys d.
Proof. unfold Dict.mem. by rewrite bool_decide_eq_false, get_is_Some. Qed.

Lemma NoDup_keys_set k v d :
  NoDup (Dict.keys d) → NoDup (Dict.keys (Dict.set k v d)).
Proof.
  intros Hnd. destruct (decide (k ∈ Dict.keys d)) as [Hin|Hnin].
  - by rewrite keys_set_present.
  - rewrite keys_set_fresh by done. apply NoDup_app.
    split_and!; [done | | apply NoDup_singleton].
    intros x Hx ->%list_elem_of_singleton. done.
Qed.

Lemma elem_of_keys_set k k' v d :
  k' ∈ Dict.keys (Dict.set k v d) ↔ k' = k ∨ k' ∈ Dict.keys d.
Proof.
  destruct (decide (k ∈ Dict.keys d)) as [Hin|Hnin].
  - rewrite keys_set_present by done.
    split; [by right | by intros [->|?]].
  - rewrite keys_set_fresh by done.
    rewrite elem_of_app, list_elem_of_singleton. tauto.
Qed.

(** The table that lists [g k] for each [k] of [l]. *)
Lemma get_tabulate (g : K → V) (l : list K) k :
  Dict.get k ((λ k, (k, g k)) <$> l)
  = if decide (k ∈ l) then Some (g k) else None.
Proof.
  induction l as [|k' l IH]; [done|].
  rewrite fmap_cons. cbn [Dict.get].
  destruct (decide (k' = k)) as [->|Hne].
  - rewrite decide_True by left. done.
  - rewrite IH. destruct (decide (k ∈ l)) as [Hin|Hnin].
    + rewrite decide_True by (by right). done.
    + rewrite decide_False; [done|]. rewrite not_elem_of_cons. done.
Qed.

Lemma keys_tabulate (g : K → V) (l : list K) :
  Dict.keys ((λ k, (k, g k)) <$> l) = l.
Proof.
  unfold Dict.keys. rewrite <- list_fmap_compose. apply list_fmap_id.
Qed.
End DictFacts.
End DictFacts.

Section ForEach.
Context {A S : Type}.

Lemma for_each_pure (f : S → A → S) body (items : list A) : ∀ st,
  (∀ st x, x ∈ items → body st x = Ok (f st x)) →
  for_each items body st = Ok (fold_left f items st).
Proof.
  induction items as [|x items IH]; intros st Hbody; simpl; [done|].
  rewrite Hbody by left. simpl. apply IH.
  intros st' y Hy. apply Hbody. by right.
Qed.

Lemma for_each_raise body x (items : list A) (st : S) e :
  body st x = Raise e → for_each (x :: items) body st = Raise e.
Proof. intros H. simpl. by rewrite H. Qed.

Lemma for_each_ext body1 body2 (items : list A) : ∀ st : S,
  (∀ st x, body1 st x = body2 st x) →
  for_each items body1 st = for_each items body2 st.
Proof.
  induction items as [|x items IH]; intros st Hbody; simpl; [done|].
  rewrite Hbody. destruct (body2 st x); simpl; auto.
Qed.

Lemma fold_left_ext_in {B} (f g : B → A → B) (l : list A) : ∀ b,
  (∀ b x, x ∈ l → f b x = g b x) → fold_left f l b = fold_left g l b.
Proof.
  induction l as [|x l IH]; intros b Hfg; simpl; [done|].
  rewrite Hfg by left. apply IH. intros b' y Hy. apply Hfg. by right.
Qed.
End ForEach.

Section Tabulate.
Context {K V : Type} `{EqDecision K}.

(** A loop that stores one value per key, over distinct keys that are
    not in the table yet, appends the keys in order. *)
Lemma fold_set_fresh (g : K → V) (items : list K) : ∀ (d : list (K * V)),
  NoDup (Dict.keys d ++ items) →
  fold_left (λ d k, Dict.set k (g k) d) items d
  = d ++ ((λ k, (k, g k)) <$> items).
Proof.
  induction items as [|k items IH]; intros d Hnd; simpl.
  - by rewrite app_nil_r.
  - apply NoDup_app in Hnd as (Hd & Hdisj & [Hk Hitems]%NoDup_cons).
    rewrite DictFacts.set_fresh by (intros Hin; eapply Hdisj; [done | left]).
    rewrite IH; [by rewrite <- app_assoc|].
    unfold Dict.keys. rewrite fmap_app. simpl.
    rewrite <- app_assoc. simpl. apply NoDup_app. split_and!; [done| |].
    + intros x Hx. apply Hdisj, Hx.
    + by apply NoDup_cons.
Qed.

Lemma fold_set_tabulate (g : K → V) (items : list K) :
  NoDup items →
  fold_left (λ d k, Dict.set k (g k) d) items []
  = (λ k, (k, g k)) <$> items.
Proof. intros Hnd. by rewrite fold_set_fresh. Qed.
End Tabulate.

(** * Properties of the enumeration of values *)

Section Product.
Context {A : Type}.
Implicit Types (pool : list A) (v : list A).

Lemma elem_of_product pool n v :
  v ∈ product pool n ↔ length v = n ∧ Forall (.∈ pool) v.
Proof.
  revert v. induction n as [|n IH]; intros v; simpl.
  - rewrite list_elem_of_singleton. split.
    + intros ->. by split.
    + intros [Hlen _]. by destruct v.
  - rewrite list_elem_of_bind. split.
    + intros (x & (v' & -> & Hv')%list_elem_of_fmap & Hx).
      apply IH in Hv' as [<- Hall]. split; [done | by constructor].
    + intros [Hlen Hall]. destruct v as [|x v]; [done|].
      apply Forall_cons in Hall as [Hx Hall].
      exists x. split; [|done]. apply list_elem_of_fmap.
      exists v. split; [done|]. apply IH. split; [|done].
      simpl in Hlen. lia.
Qed.

Lemma NoDup_product pool n : NoDup pool → NoDup (product pool n).
Proof.
  intros Hpool. induction n as [|n IH]; simpl; [apply NoDup_singleton|].
  apply NoDup_bind; [| |done].
  - intros x1 x2 v _ _ (v1 & -> & _)%list_elem_of_fmap
      (v2 & [= -> _] & _)%list_elem_of_fmap. done.
  - intros x _. apply NoDup_fmap_2; [|done]. by intros ?? [= ->].
Qed.

Lemma product_nonempty pool n : pool ≠ [] → product pool n ≠ [].
Proof.
  intros Hpool. induction n as [|n IH]; simpl; [done|].
  destruct pool as [|x pool]; [done|]. simpl.
  destruct (product (x :: pool) n); [done | done].
Qed.
End Product.

Section Bits.

Lemma product_bits_S n :
  product [0; 1] (S n)
  = ((0 ::.) <$> product [0; 1] n) ++ ((1 ::.) <$> product [0; 1] n).
Proof. simpl. by rewrite app_nil_r. Qed.

Lemma length_product_bits n :
  length (product [0; 1] n) = (2 ^ n)%nat.
Proof.
  induction n as [|n IH]; [done|].
  rewrite product_bits_S, length_app, !length_fmap, IH. simpl. lia.
Qed.

Lemma NoDup_product_bits n : NoDup (product [0; 1] n).
Proof.
  apply NoDup_product. apply NoDup_cons. split.
  - by intros ?%list_elem_of_singleton.
  - apply NoDup_singleton.
Qed.

Lemma elem_of_product_bits n (v : list Z) :
  v ∈ product [0; 1] n ↔ length v = n ∧ Forall (λ b, b = 0 ∨ b = 1) v.
Proof.
  rewrite elem_of_product. apply and_iff_compat_l.
  apply Forall_proper; [|done]. intros b.
  rewrite elem_of_cons, list_elem_of_singleton. done.
Qed.

Lemma binary_fold (v : list Z) : ∀ acc,
  fold_left (λ acc b, 2 * acc + b) v acc
  = acc * 2 ^ Z.of_nat (length v) + binary_number v.
Proof.
  unfold binary_number.
  induction v as [|b v IH]; intros acc; simpl fold_left.
  - simpl. lia.
  - rewrite IH, (IH (2 * 0 + b)).
    rewrite length_cons, Nat2Z.inj_succ, Z.pow_succ_r by lia. lia.
Qed.

Lemma binary_number_cons b (v : list Z) :
  binary_number (b :: v) = b * 2 ^ Z.of_nat (length v) + binary_number v.
Proof.
  unfold binary_number at 1. simpl fold_left. rewrite binary_fold. lia.
Qed.

(** The enumeration counts upwards in binary, the first value being the
    most significant bit. *)
Lemma binary_number_product n :
  binary_number <$> product [0; 1] n = seqZ 0 (2 ^ Z.of_nat n).
Proof.
  induction n as [|n IH]; [done|].
  assert (Hhalf : ∀ b, binary_number <$> ((b ::.) <$> product [0; 1] n)
                       = seqZ (b * 2 ^ Z.of_nat n) (2 ^ Z.of_nat n)).
  { intros b. rewrite <- list_fmap_compose.
    replace (seqZ (b * 2 ^ Z.of_nat n) (2 ^ Z.of_nat n))
      with (Z.add (b * 2 ^ Z.of_nat n) <$> seqZ 0 (2 ^ Z.of_nat n))
      by (rewrite fmap_add_seqZ; f_equal; lia).
    rewrite <- IH, <- list_fmap_compose.
    apply Forall_fmap_ext, Forall_forall. intros v Hv.
    apply elem_of_product in Hv as [Hlen _]. simpl.
    by rewrite binary_number_cons, Hlen. }
  rewrite product_bits_S, fmap_app, !Hhalf.
  rewrite Nat2Z.inj_succ, Z.pow_succ_r by lia.
  replace (2 * 2 ^ Z.of_nat n) with (2 ^ Z.of_nat n + 2 ^ Z.of_nat n) by lia.
  rewrite seqZ_app by lia. do 2 f_equal; lia.
Qed.

End Bits.

(** * Properties of evaluation *)

Section Evaluation.
Implicit Types (values : gmap string Z) (f : Function).

(** Evaluation only looks at the symbols that occur. *)
Lemma call_agree f values1 values2 :
  (∀ x, x ∈ symbols_of f → values1 !! x = values2 !! x) →
  call f values1 = call f values2.
Proof.
  induction f as [symbol|l IHl r IHr|body IH|value]; intros Hagree; simpl.
  - rewrite (Hagree symbol); [done | left].
  - rewrite IHl, IHr; [done | |];
      intros x Hx; apply Hagree; simpl; rewrite elem_of_app; auto.
  - by rewrite IH.
  - done.
Qed.

Lemma call_bound f values :
  (∀ x, x ∈ symbols_of f → is_Some (values !! x)) →
  ∃ v, call f values = Ok v.
Proof.
  induction f as [symbol|l IHl r IHr|body IH|value]; intros Hbound; simpl.
  - destruct (Hbound symbol) as [v ->]; [left | eauto].
  - destruct IHl as [a Ha];
      [intros x Hx; apply Hbound; simpl; rewrite elem_of_app; auto|].
    destruct IHr as [b Hb];
      [intros x Hx; apply Hbound; simpl; rewrite elem_of_app; auto|].
    rewrite Ha, Hb. simpl. eauto.
  - destruct IH as [b Hb]; [done|]. rewrite Hb. simpl. eauto.
  - eauto.
Qed.

Lemma call_Ok_bound f values v :
  call f values = Ok v → ∀ x, x ∈ symbols_of f → is_Some (values !! x).
Proof.
  revert v.
  induction f as [symbol|l IHl r IHr|body IH|value]; intros v; simpl.
  - destruct (values !! symbol) eqn:Hs; [|done].
    intros _ x ->%list_elem_of_singleton. by rewrite Hs.
  - intros (a & Ha & (b & Hb & _)%bind_Ok)%bind_Ok x
      [Hx|Hx]%elem_of_app; eauto.
  - intros (b & Hb & _)%bind_Ok. eauto.
  - by intros _ x ?%elem_of_nil.
Qed.

(** [KeyError] is the only exception an evaluation raises. *)
Lemma call_Raise f values e : call f values = Raise e → e = KeyError.
Proof.
  induction f as [symbol|l IHl r IHr|body IH|value]; simpl.
  - destruct (values !! symbol); [done | by intros [= <-]].
  - destruct (call l values); simpl; [|by intros [= <-]; apply IHl].
    destruct (call r values); simpl; [done | by intros [= <-]; apply IHr].
  - destruct (call body values); simpl; [done | by intros [= <-]; apply IH].
  - done.
Qed.

Lemma call_unbound f values x :
  x ∈ symbols_of f → values !! x = None → call f values = Raise KeyError.
Proof.
  intros Hx Hnone. destruct (call f values) as [v|e] eqn:Hcall.
  - destruct (call_Ok_bound _ _ _ Hcall x Hx) as [? ?]. congruence.
  - by rewrite (call_Raise _ _ _ Hcall).
Qed.

Lemma of_pairs_fold (pairs : list (Symbol * Z)) : ∀ (m : gmap string Z) x,
  is_Some (fold_left (λ m p, <[p.1 := p.2]> m) pairs m !! x)
  ↔ x ∈ pairs.*1 ∨ is_Some (m !! x).
Proof.
  induction pairs as [|[k v] pairs IH]; intros m x; simpl.
  - rewrite elem_of_nil. tauto.
  - rewrite IH, elem_of_cons, lookup_insert_is_Some.
    destruct (decide (k = x)); intuition congruence.
Qed.

Lemma of_pairs_is_Some pairs x :
  is_Some (Dict.of_pairs pairs !! x) ↔ x ∈ pairs.*1.
Proof.
  unfold Dict.of_pairs. rewrite of_pairs_fold, lookup_empty.
  split; [intros [?|[? ?]]; done | auto].
Qed.

(** The value map of the normalizer gives a value to the listed symbols
    and to no other. *)
Lemma value_map_is_Some (symbols : list Symbol) (values : list Z) x :
  length values = length symbols →
  is_Some (Dict.of_pairs (zip symbols values) !! x) ↔ x ∈ symbols.
Proof.
  intros Hlen. rewrite of_pairs_is_Some, fst_zip; [done | lia].
Qed.

Lemma value_map_None (symbols : list Symbol) (values : list Z) x :
  x ∉ symbols → Dict.of_pairs (zip symbols values) !! x = None.
Proof.
  intros Hx. apply eq_None_not_Some. rewrite of_pairs_is_Some.
  intros (p & -> & Hp)%list_elem_of_fmap. apply Hx.
  destruct p as [k v]. by apply elem_of_zip_l in Hp.
Qed.

End Evaluation.

(** * The normalizer *)

Section Normalizer.
Implicit Types (lhs rhs : Function) (symbols : list Symbol).

Lemma modulus_at_Ok lhs rhs symbols values :
  symbols_of lhs ⊆ symbols → symbols_of rhs ⊆ symbols →
  length values = length symbols →
  ∃ l r,
    call lhs (Dict.of_pairs (zip symbols values)) = Ok l
    ∧ call rhs (Dict.of_pairs (zip symbols values)) = Ok r
    ∧ modulus_at lhs rhs symbols values = Ok (if (l - r =? 0)%Z then 0 else 1).
Proof.
  intros Hl Hr Hlen. unfold modulus_at.
  destruct (call_bound lhs (Dict.of_pairs (zip symbols values))) as [l Hcl].
  { intros x Hx. apply value_map_is_Some; auto. }
  destruct (call_bound rhs (Dict.of_pairs (zip symbols values))) as [r Hcr].
  { intros x Hx. apply value_map_is_Some; auto. }
  exists l, r. by rewrite Hcl, Hcr.
Qed.

Lemma create_normalized_equation_unfold lhs rhs symbols :
  create_normalized_equation lhs rhs symbols
  = moduli ← for_each (product [0; 1] (length symbols))
               (λ moduli values,
                  m ← modulus_at lhs rhs symbols values;
                  Ok (Dict.set values m moduli)) [];
    Ok (mkEquation symbols moduli).
Proof.
  unfold create_normalized_equation, modulus_at. f_equal.
  apply for_each_ext. intros moduli values.
  destruct (call lhs _) as [l|]; simpl; [|done].
  destruct (call rhs _) as [r|]; simpl; [|done].
  by destruct (l - r =? 0).
Qed.

(** With every symbol listed, the normalizer returns the table that has
    the modulus of each tuple of values, in the order of the
    enumeration. *)
Lemma create_normalized_equation_Ok lhs rhs symbols :
  symbols_of lhs ⊆ symbols → symbols_of rhs ⊆ symbols →
  ∃ g : list Z → Z,
    (∀ values, values ∈ product [0; 1] (length symbols) →
               modulus_at lhs rhs symbols values = Ok (g values))
    ∧ create_normalized_equation lhs rhs symbols
      = Ok (mkEquation symbols
              ((λ values, (values, g values))
                 <$> product [0; 1] (length symbols))).
Proof.
  intros Hl Hr.
  set (g := λ values,
         match modulus_at lhs rhs symbols values with
         | Ok m => m
         | Raise _ => 0
         end).
  assert (Hg : ∀ values, values ∈ product [0; 1] (length symbols) →
                 modulus_at lhs rhs symbols values = Ok (g values)).
  { intros values [Hlen _]%elem_of_product. unfold g.
    destruct (modulus_at_Ok lhs rhs symbols values Hl Hr Hlen)
      as (l & r & _ & _ & ->). done. }
  exists g. split; [done|].
  rewrite create_normalized_equation_unfold.
  rewrite (for_each_pure (λ d k, Dict.set k (g k) d)).
  - simpl. by rewrite fold_set_tabulate by apply NoDup_product_bits.
  - intros st values Hv. by rewrite Hg.
Qed.

(** A symbol that is not listed makes the first evaluation fail. *)
Lemma create_normalized_equation_unbound lhs rhs symbols x :
  x ∈ symbols_of lhs ++ symbols_of rhs → x ∉ symbols →
  create_normalized_equation lhs rhs symbols = Raise KeyError.
Proof.
  intros Hx Hnot. rewrite create_normalized_equation_unfold.
  destruct (product [0; 1] (length symbols)) as [|values items] eqn:Hp.
  { by apply product_nonempty in Hp. }
  assert (Hm : modulus_at lhs rhs symbols values = Raise KeyError).
  { unfold modulus_at.
    pose proof (value_map_None symbols values x Hnot) as Hnone.
    destruct (call lhs _) as [l|e] eqn:Hcl; simpl.
    - apply elem_of_app in Hx as [Hx|Hx].
      + destruct (call_Ok_bound _ _ _ Hcl x Hx) as [? ?]. congruence.
      + by rewrite (call_unbound rhs _ x Hx Hnone).
    - by rewrite (call_Raise _ _ _ Hcl). }
  simpl. by rewrite Hm.
Qed.

End Normalizer.

Section Conjunction.
Implicit Types (a b c : Equation).

Lemma enumerated_exhaustive a : enumerated a → exhaustive a.
Proof. unfold enumerated, exhaustive. by intros ->. Qed.

Lemma exhaustive_NoDup a : exhaustive a → NoDup (Dict.keys (moduli a)).
Proof. unfold exhaustive. intros ->. apply NoDup_product_bits. Qed.

Lemma exhaustive_elem a values :
  exhaustive a →
  values ∈ Dict.keys (moduli a)
  ↔ values ∈ product [0; 1] (length (symbols a)).
Proof. unfold exhaustive. by intros ->. Qed.

Lemma boolean_moduli_get a values m :
  boolean_moduli a → Dict.get values (moduli a) = Some m → m = 0 ∨ m = 1.
Proof.
  intros Hbool Hget%DictFacts.get_Some_elem.
  unfold boolean_moduli in Hbool. rewrite Forall_forall in Hbool.
  apply Hbool. apply list_elem_of_fmap. by exists (values, m).
Qed.

(** When [b] has every key of [a], the conjunction is the table of
    [either a b] over the keys of [a]. *)
Lemma equation_conjunction_Ok a b :
  symbols a = symbols b →
  NoDup (Dict.keys (moduli a)) →
  (∀ key, key ∈ Dict.keys (moduli a) → key ∈ Dict.keys (moduli b)) →
  equation_conjunction a b
  = Ok (mkEquation (symbols a)
          ((λ key, (key, either a b key)) <$> Dict.keys (moduli a))).
Proof.
  intros Hsym Hnd Hkeys. unfold equation_conjunction.
  rewrite bool_decide_eq_true_2 by done. cbn [negb].
  rewrite (for_each_pure (λ d key, Dict.set key (either a b key) d)).
  - simpl. by rewrite fold_set_tabulate.
  - intros st key Hkey. unfold Dict.lookup, either.
    destruct (proj2 (DictFacts.get_is_Some key (moduli a)) Hkey) as [ma ->].
    destruct (proj2 (DictFacts.get_is_Some key (moduli b)) (Hkeys _ Hkey))
      as [mb ->].
    simpl. destruct (ma =? 1); simpl; [done|]. by destruct (mb =? 1).
Qed.

Lemma equation_conjunction_mismatch a b :
  symbols a ≠ symbols b → equation_conjunction a b = Raise AssertionError.
Proof.
  intros Hne. unfold equation_conjunction.
  by rewrite bool_decide_eq_false_2.
Qed.

Lemma either_comm a b key : either a b key = either b a key.
Proof. unfold either. by rewrite orb_comm. Qed.

Lemma either_is_1 a b key :
  (either a b key =? 1)
  = (default 0 (Dict.get key (moduli a)) =? 1)
    || (default 0 (Dict.get key (moduli b)) =? 1).
Proof. unfold either. by destruct (_ || _). Qed.

Lemma either_boolean a b key : either a b key = 0 ∨ either a b key = 1.
Proof. unfold either. destruct (_ || _); auto. Qed.

End Conjunction.

Section ConjunctionLaws.
Implicit Types (a b c : Equation).

Lemma same_keys a b :
  exhaustive a → exhaustive b → symbols a = symbols b →
  ∀ key, key ∈ Dict.keys (moduli a) ↔ key ∈ Dict.keys (moduli b).
Proof.
  intros Ha Hb Hsym key.
  by rewrite (exhaustive_elem a), (exhaustive_elem b), Hsym.
Qed.

(** The conjunction of two equations that satisfy the invariant. *)
Lemma equation_conjunction_inv a b :
  Equation_inv a → Equation_inv b → symbols a = symbols b →
  ∃ ab, equation_conjunction a b = Ok ab
    ∧ symbols ab = symbols a
    ∧ Dict.keys (moduli ab) = Dict.keys (moduli a)
    ∧ Equation_inv ab
    ∧ ∀ key, Dict.get key (moduli ab)
             = if decide (key ∈ Dict.keys (moduli a))
               then Some (either a b key) else None.
Proof.
  intros [Ha Hba] [Hb Hbb] Hsym.
  eexists. split.
  { apply equation_conjunction_Ok; [done | by apply exhaustive_NoDup |].
    intros key. by apply same_keys. }
  split_and!.
  - done.
  - apply DictFacts.keys_tabulate.
  - split.
    + unfold exhaustive. cbn [moduli symbols].
      by rewrite DictFacts.keys_tabulate.
    + unfold boolean_moduli. cbn [moduli].
      apply Forall_fmap, Forall_fmap, Forall_forall.
      intros key _. apply either_boolean.
  - apply DictFacts.get_tabulate.
Qed.

Lemma get_default_boolean a key :
  boolean_moduli a →
  (if default 0 (Dict.get key (moduli a)) =? 1 then 1 else 0)
  = default 0 (Dict.get key (moduli a)).
Proof.
  intros Hbool. destruct (Dict.get key (moduli a)) as [m|] eqn:Hget; [|done].
  by destruct (boolean_moduli_get a key m Hbool Hget) as [-> | ->].
Qed.

Lemma forbids_default a key :
  forbids a key ↔ (default 0 (Dict.get key (moduli a)) =? 1) = true.
Proof.
  unfold forbids. destruct (Dict.get key (moduli a)) as [m|]; simpl.
  - rewrite Z.eqb_eq. split; [by intros [= ->] | by intros ->].
  - done.
Qed.

Lemma either_decide a b key :
  either a b key = if decide (forbids a key ∨ forbids b key) then 1 else 0.
Proof.
  unfold either. case_decide as H; rewrite !forbids_default in H.
  - destruct H as [-> | ->]; [done | by rewrite orb_true_r].
  - destruct (default 0 (Dict.get key (moduli a)) =? 1); [tauto|].
    destruct (default 0 (Dict.get key (moduli b)) =? 1); [tauto | done].
Qed.

(** C4. For equations [a], [b], [c] over the same symbols (each an
    exhaustive table of 0/1 moduli), the conjunction is the pointwise OR
    of the forbidden indicators; it is commutative, idempotent and
    associative as a value, and it forbids whatever either input
    forbids. *)
Theorem equation_conjunction_laws a b c :
  Equation_inv a → Equation_inv b → Equation_inv c →
  symbols a = symbols b → symbols b = symbols c →
  ∃ ab ba aa bc ab_c a_bc,
    equation_conjunction a b = Ok ab
    ∧ equation_conjunction b a = Ok ba
    ∧ equation_conjunction a a = Ok aa
    ∧ equation_conjunction b c = Ok bc
    ∧ equation_conjunction ab c = Ok ab_c
    ∧ equation_conjunction a bc = Ok a_bc
    ∧ symbols ab = symbols a
    ∧ (∀ values, values ∈ product [0; 1] (length (symbols a)) →
         Dict.get values (moduli ab)
         = Some (if decide (forbids a values ∨ forbids b values)
                 then 1 else 0))
    ∧ Equation_eq ab ba
    ∧ Equation_eq aa a
    ∧ Equation_eq ab_c a_bc
    ∧ (∀ values, forbids a values ∨ forbids b values → forbids ab values).
Proof.
  intros Ha Hb Hc Hab Hbc.
  destruct (equation_conjunction_inv a b Ha Hb Hab)
    as (ab & Eab & Sab & Kab & Iab & Gab).
  destruct (equation_conjunction_inv b a Hb Ha (eq_sym Hab))
    as (ba & Eba & Sba & Kba & Iba & Gba).
  destruct (equation_conjunction_inv a a Ha Ha eq_refl)
    as (aa & Eaa & Saa & Kaa & Iaa & Gaa).
  destruct (equation_conjunction_inv b c Hb Hc Hbc)
    as (bc & Ebc & Sbc & Kbc & Ibc & Gbc).
  destruct (equation_conjunction_inv ab c Iab Hc)
    as (ab_c & Eab_c & Sab_c & Kab_c & Iab_c & Gab_c); [congruence|].
  destruct (equation_conjunction_inv a bc Ha Ibc)
    as (a_bc & Ea_bc & Sa_bc & Ka_bc & Ia_bc & Ga_bc); [congruence|].
  exists ab, ba, aa, bc, ab_c, a_bc.
  pose proof (same_keys a b (proj1 Ha) (proj1 Hb) Hab) as Hkeys.
  split_and!; try done.
  - intros values Hv. rewrite Gab, decide_True.
    + by rewrite either_decide.
    + by apply (exhaustive_elem a), Hv; apply Ha.
  - split; [congruence|]. intros values. rewrite Gab, Gba.
    destruct (decide (values ∈ Dict.keys (moduli a))) as [Hin|Hnin].
    + rewrite decide_True by (by apply Hkeys). by rewrite either_comm.
    + rewrite decide_False; [done|]. by rewrite <- Hkeys.
  - split; [done|]. intros values. rewrite Gaa.
    destruct (decide (values ∈ Dict.keys (moduli a))) as [Hin|Hnin].
    + apply DictFacts.get_is_Some in Hin as [m Hm].
      unfold either. rewrite orb_diag, get_default_boolean by apply Ha.
      by rewrite Hm.
    + symmetry. by apply DictFacts.get_None.
  - split; [congruence|]. intros values. rewrite Gab_c, Ga_bc, Kab.
    destruct (decide (values ∈ Dict.keys (moduli a))) as [Hin|Hnin]; [|done].
    f_equal. unfold either.
    rewrite Gab, Gbc, decide_True, decide_True by (done || by apply Hkeys).
    simpl. by rewrite !either_is_1, orb_assoc.
  - intros values Hor.
    assert (Hin : values ∈ Dict.keys (moduli a)).
    { destruct Hor as [Hf|Hf].
      - apply DictFacts.get_is_Some. by rewrite Hf.
      - apply Hkeys, DictFacts.get_is_Some. by rewrite Hf. }
    unfold forbids. rewrite Gab, decide_True, either_decide by done.
    by rewrite decide_True.
Qed.

End ConjunctionLaws.

Section NormalizerClaims.
Implicit Types (lhs rhs e : Function) (variables : list Symbol).

(** C2 as stated fails for an expression with a symbol that is not in the
    list: the first evaluation raises [KeyError] and no table is built. *)
Lemma create_normalized_equation_unlisted_symbol :
  create_normalized_equation (SymbolFunction "w") (SymbolFunction "w") ["x"]
  = Raise KeyError.
Proof. reflexivity. Qed.

(** C2, amended. For expressions [lhs] and [rhs] whose symbols all occur
    in the list of [n] symbols, the normalizer returns an equation over
    that list whose table has its [2^n] keys in the order of the
    enumeration, which counts upwards in binary with the first symbol as
    the most significant bit; the table has an entry for a tuple exactly
    when it is one of the [2^n] assignments, and the modulus of an
    assignment is 0 when [lhs - rhs] evaluates to 0 under it and 1
    otherwise. *)
Theorem create_normalized_equation_table lhs rhs variables :
  symbols_of lhs ⊆ variables → symbols_of rhs ⊆ variables →
  ∃ eq, create_normalized_equation lhs rhs variables = Ok eq
    ∧ symbols eq = variables
    ∧ Dict.keys (moduli eq) = product [0; 1] (length variables)
    ∧ binary_number <$> Dict.keys (moduli eq)
      = seqZ 0 (2 ^ Z.of_nat (length variables))
    ∧ length (moduli eq) = (2 ^ length variables)%nat
    ∧ (∀ values, is_Some (Dict.get values (moduli eq))
                 ↔ values ∈ product [0; 1] (length variables))
    ∧ (∀ values, values ∈ product [0; 1] (length variables) →
         ∃ l r,
           call lhs (Dict.of_pairs (zip variables values)) = Ok l
           ∧ call rhs (Dict.of_pairs (zip variables values)) = Ok r
           ∧ Dict.get values (moduli eq)
             = Some (if (l - r =? 0)%Z then 0 else 1)).
Proof.
  intros Hl Hr.
  destruct (create_normalized_equation_Ok lhs rhs variables Hl Hr)
    as (g & Hg & Heq).
  eexists. split; [exact Heq|]. cbn [symbols moduli].
  assert (Hkeys : Dict.keys ((λ values, (values, g values))
                               <$> product [0; 1] (length variables))
                  = product [0; 1] (length variables))
    by apply DictFacts.keys_tabulate.
  split_and!.
  - done.
  - done.
  - rewrite Hkeys. apply binary_number_product.
  - by rewrite length_fmap, length_product_bits.
  - intros values. by rewrite DictFacts.get_is_Some, Hkeys.
  - intros values Hv.
    pose proof Hv as [Hlen _]%elem_of_product.
    destruct (modulus_at_Ok lhs rhs variables values Hl Hr Hlen)
      as (l & r & Hcl & Hcr & Hm).
    exists l, r. split_and!; [done..|].
    rewrite DictFacts.get_tabulate, decide_True by done.
    specialize (Hg values Hv). rewrite Hm in Hg. by injection Hg as <-.
Qed.

Lemma create_normalized_equation_table_witness :
  ∃ eq, create_normalized_equation
          (SymbolFunction "x")
          (MultiplicationFunction (SymbolFunction "x") (SymbolFunction "y"))
          ["x"; "y"] = Ok eq
    ∧ Dict.keys (moduli eq) = [[0; 0]; [0; 1]; [1; 0]; [1; 1]]
    ∧ length (moduli eq) = 4%nat.
Proof.
  destruct (create_normalized_equation_table
              (SymbolFunction "x")
              (MultiplicationFunction (SymbolFunction "x") (SymbolFunction "y"))
              ["x"; "y"])
    as (eq & Heq & _ & Hkeys & _ & Hlen & _).
  - intros s Hs. apply list_elem_of_In in Hs. apply list_elem_of_In.
    simpl in *. tauto.
  - intros s Hs. apply list_elem_of_In in Hs. apply list_elem_of_In.
    simpl in *. tauto.
  - exists eq. split_and!; [exact Heq | exact Hkeys | exact Hlen].
Defined.

End NormalizerClaims.

Section EvaluationClaims.
Implicit Types (lhs rhs e : Function) (variables : list Symbol).

Lemma value_map_fold (pairs : list (Symbol * Z)) :
  ∀ (m : gmap string Z) x v,
  fold_left (λ m p, <[p.1 := p.2]> m) pairs m !! x = Some v →
  v ∈ pairs.*2 ∨ m !! x = Some v.
Proof.
  induction pairs as [|[k w] pairs IH]; intros m x v; simpl; [auto|].
  intros [Hin|Hm]%IH; [left; by right|].
  destruct (decide (k = x)) as [->|Hne].
  - rewrite lookup_insert_eq in Hm. injection Hm as ->. left. left.
  - rewrite lookup_insert_ne in Hm by done. auto.
Qed.

(** The normalizer gives each symbol one of the enumerated values. *)
Lemma value_map_bits variables values x v :
  values ∈ product [0; 1] (length variables) →
  Dict.of_pairs (zip variables values) !! x = Some v → v = 0 ∨ v = 1.
Proof.
  intros [Hlen Hbits]%elem_of_product_bits Hx.
  apply value_map_fold in Hx as [Hin|Hempty]; [|by rewrite lookup_empty in Hempty].
  rewrite snd_zip in Hin by lia.
  rewrite Forall_forall in Hbits. auto.
Qed.

Lemma call_boolean_in_grammar e (values : gmap string Z) :
  in_grammar e = true →
  (∀ x, x ∈ symbols_of e → values !! x = Some 0 ∨ values !! x = Some 1) →
  call e values = Ok 0 ∨ call e values = Ok 1.
Proof.
  induction e as [symbol|l IHl r IHr|body IH|value]; intros Hg Hbits; simpl.
  - destruct (Hbits symbol) as [-> | ->]; [left | auto..].
  - simpl in Hg. apply andb_prop in Hg as [Hl Hr].
    destruct IHl as [-> | ->];
      [done | intros x Hx; apply Hbits; simpl; rewrite elem_of_app; auto | |];
      (destruct IHr as [-> | ->];
       [done | intros x Hx; apply Hbits; simpl; rewrite elem_of_app; auto | |]);
      simpl; auto.
  - simpl in Hg. destruct IH as [-> | ->]; simpl; auto.
  - apply in_grammar_constant in Hg as [-> | ->]; auto.
Qed.

(** C9. An expression produced by [parse] evaluates to 0 or 1 under
    every assignment that gives each of its symbols the value 0 or 1; in
    particular this holds for every evaluation the normalizer performs on
    it, where the symbols are listed and take the enumerated values. *)
Theorem parsed_call_boolean (s : string) e :
  parse s = Ok e →
  (∀ values : gmap string Z,
     (∀ x, x ∈ symbols_of e → values !! x = Some 0 ∨ values !! x = Some 1) →
     call e values = Ok 0 ∨ call e values = Ok 1)
  ∧ (∀ variables values,
       symbols_of e ⊆ variables →
       values ∈ product [0; 1] (length variables) →
       call e (Dict.of_pairs (zip variables values)) = Ok 0
       ∨ call e (Dict.of_pairs (zip variables values)) = Ok 1).
Proof.
  intros [_ Hg]%parse_sound. split.
  - intros values. by apply call_boolean_in_grammar.
  - intros variables values Hsub Hv.
    apply call_boolean_in_grammar; [done|]. intros x Hx.
    pose proof Hv as [Hlen _]%elem_of_product.
    destruct (proj2 (value_map_is_Some variables values x Hlen) (Hsub x Hx))
      as [v Hxv].
    destruct (value_map_bits _ _ _ _ Hv Hxv) as [-> | ->]; auto.
Qed.

Lemma parsed_call_boolean_witness :
  call (MultiplicationFunction (SymbolFunction "v")
          (NegationFunction (SymbolFunction "x")))
       (Dict.of_pairs (zip ["x"; "v"] [0; 1])) = Ok 0
  ∨ call (MultiplicationFunction (SymbolFunction "v")
            (NegationFunction (SymbolFunction "x")))
         (Dict.of_pairs (zip ["x"; "v"] [0; 1])) = Ok 1.
Proof.
  apply (proj2 (parsed_call_boolean "v(1-x)" _ eq_refl) ["x"; "v"] [0; 1]).
  - intros s Hs. apply list_elem_of_In in Hs. apply list_elem_of_In.
    simpl in *. tauto.
  - apply list_elem_of_In. simpl. tauto.
Defined.

(** C10. Evaluation is insensitive to extra bindings: two assignments
    that give a value to every symbol of [e] and agree on those symbols
    give [e] the same value.  So the normalizer accepts a list with more
    symbols than occur in [lhs] and [rhs], and the modulus it stores
    depends only on the values of the symbols that occur. *)
Theorem call_insensitive_to_extra_bindings :
  (∀ e (values1 values2 : gmap string Z),
     (∀ x, x ∈ symbols_of e →
           is_Some (values1 !! x) ∧ values1 !! x = values2 !! x) →
     ∃ v, call e values1 = Ok v ∧ call e values2 = Ok v)
  ∧ (∀ lhs rhs variables,
       symbols_of lhs ⊆ variables → symbols_of rhs ⊆ variables →
       ∃ eq, create_normalized_equation lhs rhs variables = Ok eq
         ∧ ∀ values1 values2,
             values1 ∈ product [0; 1] (length variables) →
             values2 ∈ product [0; 1] (length variables) →
             (∀ x, x ∈ symbols_of lhs ++ symbols_of rhs →
                   Dict.of_pairs (zip variables values1) !! x
                   = Dict.of_pairs (zip variables values2) !! x) →
             Dict.get values1 (moduli eq) = Dict.get values2 (moduli eq)).
Proof.
  split.
  - intros e values1 values2 Hagree.
    destruct (call_bound e values1) as [v Hv]; [intros x Hx; by apply Hagree|].
    exists v. split; [done|]. rewrite <- Hv. symmetry.
    apply call_agree. intros x Hx. by apply Hagree.
  - intros lhs rhs variables Hl Hr.
    destruct (create_normalized_equation_Ok lhs rhs variables Hl Hr)
      as (g & Hg & Heq).
    eexists. split; [exact Heq|]. cbn [moduli].
    intros values1 values2 Hv1 Hv2 Hagree.
    rewrite !DictFacts.get_tabulate, !decide_True by done. f_equal.
    pose proof (Hg values1 Hv1) as H1. pose proof (Hg values2 Hv2) as H2.
    unfold modulus_at in H1, H2.
    rewrite (call_agree lhs _ (Dict.of_pairs (zip variables values2))) in H1
      by (intros x Hx; apply Hagree; rewrite elem_of_app; auto).
    rewrite (call_agree rhs _ (Dict.of_pairs (zip variables values2))) in H1
      by (intros x Hx; apply Hagree; rewrite elem_of_app; auto).
    congruence.
Qed.

End EvaluationClaims.

(** * Rendering an equation *)

Section Rendering.
Implicit Types (eq : Equation) (variables : list Symbol).

Lemma repr_terms_filter (f : list Z → string) (l : list (list Z * Z)) :
  ∀ terms,
  fold_left
    (λ terms vm, if negb (vm.2 =? 0)%Z then terms ++ [f vm.1] else terms)
    l terms
  = terms ++ (f <$> (filter (λ vm, vm.2 ≠ 0) l).*1).
Proof.
  induction l as [|[v m] l IH]; intros terms; simpl.
  - by rewrite app_nil_r.
  - rewrite IH. destruct (Z.eqb_spec m 0) as [->|Hm]; simpl.
    + by rewrite filter_cons_False by (simpl; lia).
    + rewrite filter_cons_True by done. simpl. by rewrite <- app_assoc.
Qed.

Lemma filter_forbidden eq (l : list (list Z * Z)) :
  boolean_moduli eq →
  (∀ vm, vm ∈ l → Dict.get vm.1 (moduli eq) = Some vm.2) →
  (filter (λ vm, vm.2 ≠ 0) l).*1 = filter (forbids eq) l.*1.
Proof.
  intros Hbool. induction l as [|[v m] l IH]; intros Hget; [done|].
  assert (Hv : Dict.get v (moduli eq) = Some m) by (apply (Hget (v, m)); left).
  assert (IH' : (filter (λ vm, vm.2 ≠ 0) l).*1 = filter (forbids eq) l.*1)
    by (apply IH; intros vm Hvm; apply Hget; by right).
  rewrite fmap_cons. cbn [fst].
  destruct (boolean_moduli_get eq v m Hbool Hv) as [-> | ->].
  - rewrite filter_cons_False by (simpl; lia).
    rewrite filter_cons_False; [done|]. unfold forbids. by rewrite Hv.
  - rewrite filter_cons_True by done.
    rewrite filter_cons_True by done. rewrite fmap_cons. by rewrite IH'.
Qed.

Lemma repr_term_fold (p : Symbol * Z → string) (l : list (Symbol * Z)) :
  ∀ term,
  fold_left (λ term sv, term +:+ p sv) l term
  = term +:+ fold_right (λ sv term, p sv +:+ term) "" l.
Proof.
  induction l as [|sv l IH]; intros term; simpl.
  - by rewrite StrFacts.app_nil_r.
  - by rewrite IH, StrFacts.app_assoc.
Qed.

(** On 0/1 values the term the code builds is the term of the
    specification. *)
Lemma repr_term_render variables (values : list Z) :
  Forall (λ b, b = 0 ∨ b = 1) values →
  repr_term variables values = render_term variables values.
Proof.
  intros Hbits. unfold repr_term, render_term.
  rewrite (fold_left_ext_in _
             (λ term sv, term +:+ (if (sv.2 =? 1)%Z then sv.1
                                   else "(1-" +:+ sv.1 +:+ ")")));
    [|intros term sv _; by destruct (sv.2 =? 1)%Z].
  rewrite repr_term_fold. simpl.
  revert values Hbits.
  induction variables as [|x variables IH]; intros [|b values] Hbits;
    try done.
  apply Forall_cons in Hbits as [Hb Hbits]. simpl.
  rewrite (IH values Hbits). f_equal. unfold render_piece.
  destruct Hb as [-> | ->]; done.
Qed.

Lemma get_own_entries eq :
  NoDup (Dict.keys (moduli eq)) →
  ∀ vm, vm ∈ moduli eq → Dict.get vm.1 (moduli eq) = Some vm.2.
Proof. intros Hnd [v m] Hvm. by apply DictFacts.elem_get. Qed.

(** C8. For an equation whose table follows the enumeration and holds
    0/1 moduli, the rendering is the one of the specification: a term for
    each forbidden assignment in the order of the enumeration, built from
    the letter (value 1) or ["(1-" + letter + ")"] (value 0) of each
    symbol in order, the terms joined with [" + "] and followed by
    [" = 0"]; and ["0 = 0"] when no assignment is forbidden. *)
Theorem Equation_repr_render eq :
  enumerated eq → boolean_moduli eq →
  Equation_repr eq = render_Equation eq
  ∧ ((∀ values, ¬ forbids eq values) → Equation_repr eq = "0 = 0").
Proof.
  intros Henum Hbool.
  assert (Hnd : NoDup (Dict.keys (moduli eq)))
    by (apply exhaustive_NoDup, enumerated_exhaustive, Henum).
  assert (Hterms : repr_terms eq
            = render_term (symbols eq)
                <$> filter (forbids eq)
                      (product [0; 1] (length (symbols eq)))).
  { unfold repr_terms. rewrite repr_terms_filter. simpl.
    rewrite (filter_forbidden eq) by (done || by apply get_own_entries).
    unfold enumerated, Dict.keys in Henum. rewrite Henum.
    apply Forall_fmap_ext, Forall_forall. intros values Hv.
    apply list_elem_of_filter in Hv as [_ Hv].
    apply elem_of_product_bits in Hv as [_ Hbits].
    by apply repr_term_render. }
  assert (Hrepr : Equation_repr eq = render_Equation eq).
  { unfold Equation_repr, render_Equation. rewrite Hterms.
    by destruct (filter _ _). }
  split; [done|]. intros Hnone. rewrite Hrepr. unfold render_Equation.
  destruct (filter _ _) as [|values l] eqn:Hf; [done|].
  assert (Hin : values ∈ filter (forbids eq)
                  (product [0; 1] (length (symbols eq))))
    by (rewrite Hf; left).
  apply list_elem_of_filter in Hin as [Hforb _].
  by destruct (Hnone values).
Qed.

End Rendering.

(** * The eliminator *)

Section ListOperations.
Context {A : Type} `{EqDecision A}.
Implicit Types (l : list A) (x : A).

Lemma index_Ok l x k : index x l = Ok k → l !! k = Some x.
Proof.
  revert k. induction l as [|y l IH]; intros k; simpl; [done|].
  case_decide as Hy; [by intros [= <-]; subst|].
  destruct (index x l) as [j|] eqn:Hj; simpl; [|done].
  intros [= <-]. by apply IH.
Qed.

Lemma index_NoDup l x k : NoDup l → l !! k = Some x → index x l = Ok k.
Proof.
  revert k. induction l as [|y l IH]; intros k; [done|].
  intros [Hy Hnd]%NoDup_cons Hk. simpl. destruct k as [|k]; simpl in Hk.
  - injection Hk as ->. by rewrite decide_True.
  - rewrite decide_False.
    + by rewrite (IH k).
    + intros ->. apply Hy. by eapply list_elem_of_lookup_2.
Qed.

Lemma index_not_elem l x : x ∉ l → index x l = Raise ValueError.
Proof.
  induction l as [|y l IH]; simpl; [done|].
  intros [Hne Hnin]%not_elem_of_cons.
  rewrite decide_False by done. by rewrite IH.
Qed.

Lemma pop_Ok l i : (i < length l)%nat → pop i l = Ok (delete i l).
Proof.
  revert i. induction l as [|y l IH]; intros i Hi; [simpl in Hi; lia|].
  destruct i as [|i]; [done|].
  change (pop (S i) (y :: l)) with ((y ::.) <$> pop i l).
  rewrite IH by (simpl in Hi; lia). done.
Qed.

Lemma filter_ne_id l x : x ∉ l → filter (λ y, y ≠ x) l = l.
Proof.
  induction l as [|y l IH]; [done|].
  intros [Hne Hnin]%not_elem_of_cons.
  rewrite filter_cons_True by done. by rewrite IH.
Qed.

Lemma delete_filter l x k :
  NoDup l → l !! k = Some x → delete k l = filter (λ y, y ≠ x) l.
Proof.
  revert k. induction l as [|y l IH]; intros k; [done|].
  intros [Hy Hnd]%NoDup_cons Hk. destruct k as [|k]; simpl in Hk.
  - injection Hk as ->. rewrite filter_cons_False by (intros ?; done).
    simpl. by rewrite filter_ne_id.
  - rewrite filter_cons_True.
    + simpl. by rewrite (IH k).
    + intros ->. apply Hy. by eapply list_elem_of_lookup_2.
Qed.
End ListOperations.

Section Counting.
Implicit Types (ec ms : list (list Z * Z)) (vm : list Z * Z).

Lemma with_key_elem values2 ec x :
  x ∈ Dict.keys (with_key values2 ec) ↔ x = values2 ∨ x ∈ Dict.keys ec.
Proof.
  unfold with_key. destruct (Dict.mem values2 ec) eqn:Hmem; simpl.
  - apply DictFacts.mem_true in Hmem. split; [auto | by intros [->|?]].
  - apply DictFacts.elem_of_keys_set.
Qed.

Lemma with_key_NoDup values2 ec :
  NoDup (Dict.keys ec) → NoDup (Dict.keys (with_key values2 ec)).
Proof.
  unfold with_key. destruct (Dict.mem values2 ec); simpl; [done|].
  apply DictFacts.NoDup_keys_set.
Qed.

Lemma with_key_get values2 ec x :
  default 0 (Dict.get x (with_key values2 ec)) = default 0 (Dict.get x ec).
Proof.
  unfold with_key. destruct (Dict.mem values2 ec) eqn:Hmem; simpl; [done|].
  apply DictFacts.mem_false, DictFacts.get_None in Hmem.
  destruct (decide (values2 = x)) as [<-|Hne].
  - by rewrite DictFacts.get_set_eq, Hmem.
  - by rewrite DictFacts.get_set_ne.
Qed.

Lemma count_step_unfold k ec vm :
  count_step k ec vm
  = if (vm.2 =? 1)%Z then
      Dict.set (delete k vm.1)
        (default 0 (Dict.get (delete k vm.1) (with_key (delete k vm.1) ec)) + 1)
        (with_key (delete k vm.1) ec)
    else with_key (delete k vm.1) ec.
Proof. done. Qed.

Lemma count_step_elem k ec vm x :
  x ∈ Dict.keys (count_step k ec vm) ↔ x = delete k vm.1 ∨ x ∈ Dict.keys ec.
Proof.
  rewrite count_step_unfold. destruct (vm.2 =? 1)%Z.
  - rewrite DictFacts.elem_of_keys_set, with_key_elem. tauto.
  - apply with_key_elem.
Qed.

Lemma count_step_NoDup k ec vm :
  NoDup (Dict.keys ec) → NoDup (Dict.keys (count_step k ec vm)).
Proof.
  intros Hnd. rewrite count_step_unfold. destruct (vm.2 =? 1)%Z.
  - by apply DictFacts.NoDup_keys_set, with_key_NoDup.
  - by apply with_key_NoDup.
Qed.

Lemma count_step_get k ec vm x :
  default 0 (Dict.get x (count_step k ec vm))
  = default 0 (Dict.get x ec)
    + (if decide (delete k vm.1 = x ∧ vm.2 = 1) then 1 else 0).
Proof.
  rewrite count_step_unfold. destruct (Z.eqb_spec vm.2 1) as [Hm|Hm].
  - destruct (decide (delete k vm.1 = x)) as [<-|Hne].
    + rewrite DictFacts.get_set_eq, decide_True by done.
      simpl. by rewrite with_key_get.
    + rewrite DictFacts.get_set_ne, with_key_get by done.
      rewrite decide_False by tauto. lia.
  - rewrite with_key_get, decide_False by tauto. lia.
Qed.

Lemma tally_cons k vm ms x :
  tally k (vm :: ms) x
  = (if decide (delete k vm.1 = x ∧ vm.2 = 1) then 1 else 0) + tally k ms x.
Proof.
  unfold tally. rewrite filter_cons. case_decide; simpl; lia.
Qed.

(** The first loop of the eliminator: the keys are the projections, each
    once, and the count of a projection is its tally. *)
Lemma fold_count k ms : ∀ ec,
  NoDup (Dict.keys ec) →
  NoDup (Dict.keys (fold_left (count_step k) ms ec))
  ∧ (∀ x, x ∈ Dict.keys (fold_left (count_step k) ms ec)
          ↔ x ∈ Dict.keys ec ∨ x ∈ delete k <$> ms.*1)
  ∧ (∀ x, default 0 (Dict.get x (fold_left (count_step k) ms ec))
          = default 0 (Dict.get x ec) + tally k ms x).
Proof.
  induction ms as [|vm ms IH]; intros ec Hnd; simpl.
  - split_and!; [done | | ].
    + intros x. rewrite elem_of_nil. tauto.
    + intros x. unfold tally. simpl. lia.
  - destruct (IH (count_step k ec vm) (count_step_NoDup k ec vm Hnd))
      as (Hnd' & Hkeys & Hget).
    split_and!; [done | | ].
    + intros x. rewrite Hkeys, count_step_elem, elem_of_cons. tauto.
    + intros x. rewrite Hget, count_step_get, tally_cons. lia.
Qed.

End Counting.

Section EliminatorRun.
Implicit Types (eq : Equation) (symbol : Symbol).

Lemma fold_set_values (h : Z → Z) (items : list (list Z * Z)) :
  ∀ d : list (list Z * Z),
  NoDup (Dict.keys d ++ Dict.keys items) →
  fold_left (λ d vc, Dict.set vc.1 (h vc.2) d) items d
  = d ++ ((λ vc, (vc.1, h vc.2)) <$> items).
Proof.
  induction items as [|[v c] items IH]; intros d Hnd; simpl.
  - by rewrite app_nil_r.
  - unfold Dict.keys in Hnd. rewrite fmap_cons in Hnd. cbn [fst] in Hnd.
    pose proof Hnd as (Hd & Hdisj & [Hv Hitems]%NoDup_cons)%NoDup_app.
    rewrite DictFacts.set_fresh by (intros Hin; eapply Hdisj; [done | left]).
    rewrite IH; [by rewrite <- app_assoc|].
    unfold Dict.keys. rewrite fmap_app, <- app_assoc. done.
Qed.

Lemma get_fmap_values (h : Z → Z) (d : list (list Z * Z)) key :
  Dict.get key ((λ vc, (vc.1, h vc.2)) <$> d) = h <$> Dict.get key d.
Proof.
  induction d as [|[v c] d IH]; [done|].
  rewrite fmap_cons. cbn [Dict.get fst snd]. by case_decide.
Qed.

Lemma keys_fmap_values (h : Z → Z) (d : list (list Z * Z)) :
  Dict.keys ((λ vc, (vc.1, h vc.2)) <$> d) = Dict.keys d.
Proof.
  unfold Dict.keys. rewrite <- list_fmap_compose.
  by apply list_fmap_ext.
Qed.

(** With the symbol at position [k] and every key longer than [k], the
    eliminator returns the symbols without position [k] and the table
    that marks the projections counted twice. *)
Lemma eliminate_symbol_Ok eq symbol k :
  index symbol (symbols eq) = Ok k →
  (∀ vm, vm ∈ moduli eq → (k < length vm.1)%nat) →
  eliminate_symbol eq symbol
  = Ok (mkEquation (delete k (symbols eq))
          ((λ vc, (vc.1, if (vc.2 =? 2)%Z then 1 else 0))
             <$> fold_left (count_step k) (moduli eq) [])).
Proof.
  intros Hindex Hlen. unfold eliminate_symbol.
  rewrite (for_each_pure (count_step k)).
  - cbn [mbind result_bind]. rewrite Hindex. cbn [mbind result_bind].
    rewrite pop_Ok
      by (apply index_Ok in Hindex; by eapply lookup_lt_Some).
    cbn [mbind result_bind]. do 2 f_equal.
    apply (fold_set_values (λ c, if (c =? 2)%Z then 1 else 0)).
    simpl. apply fold_count. apply NoDup_nil_2.
  - intros ec vm Hvm. rewrite Hindex. cbn [mbind result_bind].
    rewrite pop_Ok by auto. cbn [mbind result_bind].
    rewrite count_step_unfold. fold (with_key (delete k vm.1) ec).
    destruct (vm.2 =? 1)%Z; [|done].
    unfold Dict.lookup.
    destruct (proj2 (DictFacts.get_is_Some (delete k vm.1)
                       (with_key (delete k vm.1) ec))) as [c Hc].
    { apply with_key_elem. auto. }
    by rewrite Hc.
Qed.

Lemma eliminate_symbol_unknown eq symbol :
  symbol ∉ symbols eq → eliminate_symbol eq symbol = Raise ValueError.
Proof.
  intros Hnot. unfold eliminate_symbol.
  destruct (moduli eq) as [|vm ms].
  - simpl. by rewrite index_not_elem.
  - erewrite for_each_raise; [done|]. by rewrite index_not_elem.
Qed.

End EliminatorRun.

Section Projection.
Implicit Types (v : list Z) (k n : nat) (b : Z).

Lemma delete_completion k b (values2 : list Z) :
  (k ≤ length values2)%nat → delete k (completion k b values2) = values2.
Proof.
  intros Hk. unfold completion.
  rewrite <- (length_take_le values2 k Hk) at 1.
  rewrite delete_middle. apply take_drop.
Qed.

Lemma completion_delete v k b :
  v !! k = Some b → completion k b (delete k v) = v.
Proof.
  intros Hk. pose proof (lookup_lt_Some _ _ _ Hk) as Hlen.
  unfold completion. rewrite delete_take_drop.
  rewrite take_app_length', drop_app_length' by (rewrite length_take; lia).
  by apply take_drop_middle.
Qed.

Lemma completion_ne k (values2 : list Z) :
  completion k 0 values2 ≠ completion k 1 values2.
Proof. unfold completion. by intros [=]%app_inv_head. Qed.

Lemma delete_product v k n :
  v ∈ product [0; 1] n → (k < n)%nat →
  delete k v ∈ product [0; 1] (n - 1).
Proof.
  intros [Hlen Hbits]%elem_of_product_bits Hk.
  apply elem_of_product_bits. split.
  - rewrite length_delete; [lia|]. apply lookup_lt_is_Some. lia.
  - by apply Forall_delete.
Qed.

Lemma completion_product (values2 : list Z) k n b :
  values2 ∈ product [0; 1] (n - 1) → (k < n)%nat → b = 0 ∨ b = 1 →
  completion k b values2 ∈ product [0; 1] n.
Proof.
  intros [Hlen Hbits]%elem_of_product_bits Hk Hb.
  apply elem_of_product_bits. unfold completion. split.
  - rewrite length_app, length_cons, length_take, length_drop. lia.
  - apply Forall_app. split; [by apply Forall_take|].
    apply Forall_cons. split; [done | by apply Forall_drop].
Qed.

Lemma product_completion v k n :
  v ∈ product [0; 1] n → (k < n)%nat →
  v = completion k 0 (delete k v) ∨ v = completion k 1 (delete k v).
Proof.
  intros [Hlen Hbits]%elem_of_product_bits Hk.
  destruct (lookup_lt_is_Some_2 v k) as [b Hb]; [lia|].
  rewrite Forall_forall in Hbits.
  destruct (Hbits b) as [-> | ->];
    [by eapply list_elem_of_lookup_2 | left | right];
    symmetry; by apply completion_delete.
Qed.

End Projection.

Section EliminatorClaims.
Implicit Types (eq : Equation) (symbol : Symbol) (k : nat).

Lemma exhaustive_get eq v :
  exhaustive eq → v ∈ product [0; 1] (length (symbols eq)) →
  ∃ m, Dict.get v (moduli eq) = Some m.
Proof.
  intros Hex Hv. apply DictFacts.get_is_Some. by apply exhaustive_elem.
Qed.

Lemma exhaustive_length eq vm :
  exhaustive eq → vm ∈ moduli eq → length vm.1 = length (symbols eq).
Proof.
  intros Hex Hvm.
  assert (Hk : vm.1 ∈ Dict.keys (moduli eq))
    by (apply list_elem_of_fmap; eauto).
  apply (exhaustive_elem eq _ Hex), elem_of_product in Hk. tauto.
Qed.

(** The tally of a projected assignment counts its two completions. *)
Lemma tally_completions eq k (values2 : list Z) :
  exhaustive eq → (k < length (symbols eq))%nat →
  values2 ∈ product [0; 1] (length (symbols eq) - 1) →
  tally k (moduli eq) values2
  = (if decide (forbids eq (completion k 0 values2)) then 1 else 0)
    + (if decide (forbids eq (completion k 1 values2)) then 1 else 0).
Proof.
  intros Hex Hk Hv2.
  set (c0 := completion k 0 values2). set (c1 := completion k 1 values2).
  assert (Hc0 : c0 ∈ product [0; 1] (length (symbols eq)))
    by (apply completion_product; auto).
  assert (Hc1 : c1 ∈ product [0; 1] (length (symbols eq)))
    by (apply completion_product; auto).
  destruct (exhaustive_get eq c0 Hex Hc0) as [m0 Hm0].
  destruct (exhaustive_get eq c1 Hex Hc1) as [m1 Hm1].
  assert (Hlen2 : (k ≤ length values2)%nat).
  { apply elem_of_product in Hv2 as [-> _]. lia. }
  pose proof (exhaustive_NoDup eq Hex) as Hnd.
  set (P := λ vm : list Z * Z, delete k vm.1 = values2 ∧ vm.2 = 1).
  assert (Hperm : filter P (moduli eq) ≡ₚ filter P [(c0, m0); (c1, m1)]).
  { apply NoDup_Permutation.
    - apply NoDup_filter. by apply (NoDup_fmap_1 fst).
    - apply NoDup_filter. apply NoDup_cons. split; [|apply NoDup_singleton].
      intros [= Habs _]%list_elem_of_singleton.
      by apply completion_ne in Habs.
    - intros [v m].
      rewrite !list_elem_of_filter, elem_of_cons, list_elem_of_singleton.
      split; intros [HP Hin]; (split; [done|]).
      + destruct HP as [Hdel _]. simpl in Hdel.
        pose proof (DictFacts.elem_get _ _ _ Hnd Hin) as Hget.
        assert (Hv : v ∈ product [0; 1] (length (symbols eq))).
        { apply (exhaustive_elem eq _ Hex).
          apply list_elem_of_fmap. by exists (v, m). }
        unfold c0, c1 in *.
        destruct (product_completion v k _ Hv Hk) as [Heq|Heq];
          rewrite Hdel in Heq; subst v; [left | right]; congruence.
      + destruct Hin as [[= -> ->] | [= -> ->]];
          by apply DictFacts.get_Some_elem. }
  unfold tally. fold P. rewrite Hperm.
  assert (HP0 : P (c0, m0) ↔ forbids eq c0).
  { unfold P, forbids, c0. simpl.
    rewrite delete_completion by done. fold c0. rewrite Hm0.
    split; [by intros [_ ->] | by intros [= ->]]. }
  assert (HP1 : P (c1, m1) ↔ forbids eq c1).
  { unfold P, forbids, c1. simpl.
    rewrite delete_completion by done. fold c1. rewrite Hm1.
    split; [by intros [_ ->] | by intros [= ->]]. }
  rewrite filter_cons, (filter_singleton P (c1, m1) []).
  destruct (decide (P (c0, m0))), (decide (P (c1, m1)));
    destruct (decide (forbids eq c0)), (decide (forbids eq c1));
    simpl; tauto || lia.
Qed.

(** C3. For an equation with an exhaustive table over [n] distinct
    symbols and [symbol] at position [k], the eliminator returns an
    equation whose symbols are those of [eq] without [symbol], in the same
    order, and whose table is exhaustive over the [2^(n-1)] remaining
    assignments; a remaining assignment is forbidden exactly when both of
    its completions (with [symbol = 0] and [symbol = 1] put back at
    position [k]) are forbidden in [eq]. *)
Theorem eliminate_symbol_projection eq symbol k :
  exhaustive eq → NoDup (symbols eq) → symbols eq !! k = Some symbol →
  ∃ eq', eliminate_symbol eq symbol = Ok eq'
    ∧ symbols eq' = filter (λ x, x ≠ symbol) (symbols eq)
    ∧ length (symbols eq') = (length (symbols eq) - 1)%nat
    ∧ exhaustive eq'
    ∧ boolean_moduli eq'
    ∧ length (moduli eq') = (2 ^ (length (symbols eq) - 1))%nat
    ∧ ∀ values2, values2 ∈ product [0; 1] (length (symbols eq) - 1) →
        (forbids eq' values2
         ↔ forbids eq (completion k 0 values2)
           ∧ forbids eq (completion k 1 values2)).
Proof.
  intros Hex Hdistinct Hk.
  pose proof (lookup_lt_Some _ _ _ Hk) as Hlt.
  pose proof (index_NoDup _ _ _ Hdistinct Hk) as Hindex.
  destruct (fold_count k (moduli eq) [] (NoDup_nil_2 (A:=list Z)))
    as (Hnd & Hkeys & Hget).
  set (ec := fold_left (count_step k) (moduli eq) []) in *.
  set (mark := λ c : Z, if (c =? 2)%Z then 1 else 0).
  assert (Hlen' : length (delete k (symbols eq)) = (length (symbols eq) - 1)%nat).
  { rewrite length_delete; [done|]. by exists symbol. }
  assert (Helem : ∀ x, x ∈ Dict.keys ec
                       ↔ x ∈ product [0; 1] (length (symbols eq) - 1)).
  { intros x. rewrite Hkeys. split.
    - intros [[]%elem_of_nil | (v & -> & Hv)%list_elem_of_fmap].
      apply delete_product; [|done]. by apply (exhaustive_elem eq).
    - intros Hx. right. apply list_elem_of_fmap.
      exists (completion k 0 x). split.
      + symmetry. apply delete_completion.
        apply elem_of_product in Hx as [-> _]. lia.
      + apply (exhaustive_elem eq _ Hex), completion_product; auto. }
  assert (Hexh : Dict.keys ec ≡ₚ product [0; 1] (length (symbols eq) - 1)).
  { apply NoDup_Permutation; [done | apply NoDup_product_bits | done]. }
  exists (mkEquation (delete k (symbols eq)) ((λ vc, (vc.1, mark vc.2)) <$> ec)).
  split_and!.
  - apply eliminate_symbol_Ok; [done|].
    intros vm Hvm. by rewrite (exhaustive_length eq vm).
  - by apply delete_filter.
  - done.
  - unfold exhaustive. cbn [symbols moduli].
    by rewrite keys_fmap_values, Hlen'.
  - unfold boolean_moduli. cbn [moduli].
    apply Forall_fmap, Forall_fmap, Forall_forall.
    intros vc _. unfold mark. simpl. destruct (vc.2 =? 2)%Z; auto.
  - cbn [moduli]. rewrite length_fmap.
    rewrite <- (length_fmap fst ec). fold (Dict.keys ec).
    by rewrite Hexh, length_product_bits.
  - intros values2 Hv2. unfold forbids at 1. cbn [moduli].
    rewrite get_fmap_values.
    destruct (proj2 (DictFacts.get_is_Some values2 ec)) as [c Hc];
      [by apply Helem|].
    pose proof (Hget values2) as Hc'. rewrite Hc in Hc'. simpl in Hc'.
    rewrite (tally_completions eq k values2 Hex Hlt Hv2) in Hc'.
    rewrite Hc. simpl. unfold mark.
    destruct (decide (forbids eq (completion k 0 values2))),
             (decide (forbids eq (completion k 1 values2)));
      subst c; simpl; split; (done || tauto || (by intros [=])).
Qed.

End EliminatorClaims.

Section ErrorClaims.

Lemma negations_only_repr e :
  in_grammar e = true → ∀ rest,
  negations_only (repr e +:+ rest) = negations_only rest.
Proof.
  induction e as [symbol|l IHl r IHr|body IH|value]; intros Hg rest.
  - apply in_grammar_symbol in Hg as (c & -> & Hc).
    destruct (is_lower_not_paren _ Hc) as [Ho _].
    simpl. by rewrite Ho.
  - simpl in Hg. apply andb_prop in Hg as [Hl Hr].
    simpl. by rewrite StrFacts.app_assoc, IHl, IHr.
  - simpl in Hg. simpl. rewrite StrFacts.app_assoc, IH by done.
    by destruct (repr body +:+ ")" +:+ rest).
  - apply in_grammar_constant in Hg as [-> | ->]; reflexivity.
Qed.

Lemma parse_negations_only s e : parse s = Ok e → negations_only s = true.
Proof.
  intros [<- Hg]%parse_sound.
  rewrite <- (StrFacts.app_nil_r (repr e)). by rewrite negations_only_repr.
Qed.

(** C6 as stated fails: the parser has no single error kind.  Its four
    kinds of malformed input raise four different exceptions, and the
    exception for a ["("] without ["1-"] is the one the conjunction raises
    on a mismatch of symbols. *)
Lemma parse_errors_of_four_kinds :
  parse "" = Raise IndexError
  ∧ parse "?" = Raise ValueError
  ∧ parse "(x)" = Raise AssertionError
  ∧ parse "(1-x" = Raise TypeError
  ∧ equation_conjunction (mkEquation ["x"] [([0], 0); ([1], 0)])
                         (mkEquation ["y"] [([0], 0); ([1], 0)])
    = Raise AssertionError
  ∧ ¬ ∃ kind, parse "" = Raise kind ∧ parse "?" = Raise kind
              ∧ parse "(x)" = Raise kind ∧ parse "(1-x" = Raise kind.
Proof.
  split_and!; try reflexivity.
  intros (kind & H1 & H2 & _). vm_compute in H1, H2. congruence.
Qed.

(** C6, amended. Every invalid input or precondition violation makes the
    call raise a built-in exception instead of returning a result:
    [parse] raises [IndexError] on the empty text, [ValueError] on a single
    unrecognized character, [AssertionError] on a longer text that starts
    with ["("] but not with ["(1-"], and some exception on every text in
    which a ["("] is not followed by ["1-"] or the parentheses are
    unbalanced; it never accepts a part of its input, since what it
    returns is in the grammar and renders back to the whole text.
    Evaluating a symbol that has no value raises [KeyError], the
    conjunction of equations over different symbol lists raises
    [AssertionError], and eliminating a symbol that is not in the list
    raises [ValueError]. *)
Theorem invalid_inputs_raise :
  parse "" = Raise IndexError
  ∧ (∀ c, is_lower c = false → c ≠ "0"%char → c ≠ "1"%char →
          parse (String c "") = Raise ValueError)
  ∧ (∀ c r, Str.slice 0 (Some 3%nat) (String "(" (String c r)) ≠ "(1-" →
            parse (String "(" (String c r)) = Raise AssertionError)
  ∧ (∀ s, negations_only s = false ∨ balanced s = false →
          ∃ e, parse s = Raise e)
  ∧ (∀ s e, parse s = Ok e → repr e = s ∧ in_grammar e = true)
  ∧ (∀ symbol (values : gmap string Z),
       values !! symbol = None →
       call (SymbolFunction symbol) values = Raise KeyError)
  ∧ (∀ a b, symbols a ≠ symbols b →
            equation_conjunction a b = Raise AssertionError)
  ∧ (∀ eq symbol, symbol ∉ symbols eq →
                  eliminate_symbol eq symbol = Raise ValueError).
Proof.
  split_and!.
  - apply parse_empty.
  - apply parse_unrecognized.
  - apply parse_bad_prefix.
  - intros s Hs. destruct (parse s) as [e|err] eqn:Hp; [|eauto].
    pose proof (parse_negations_only _ _ Hp).
    pose proof (parse_balanced _ _ Hp).
    destruct Hs; congruence.
  - apply parse_sound.
  - intros symbol values Hnone. simpl. by rewrite Hnone.
  - apply equation_conjunction_mismatch.
  - apply eliminate_symbol_unknown.
Qed.

Lemma invalid_inputs_raise_witness :
  parse "A" = Raise ValueError
  ∧ parse "((1-x)" = Raise AssertionError
  ∧ (∃ e, parse "(1-x))" = Raise e)
  ∧ call (SymbolFunction "y") (Dict.of_pairs [("x", 1)]) = Raise KeyError
  ∧ equation_conjunction (mkEquation ["x"] [([0], 0); ([1], 1)])
                         (mkEquation ["x"; "y"] [])
    = Raise AssertionError
  ∧ eliminate_symbol (mkEquation ["x"] [([0], 0); ([1], 1)]) "y"
    = Raise ValueError.
Proof.
  destruct invalid_inputs_raise
    as (_ & Hchar & Hprefix & Hbal & _ & Hcall & Hconj & Helim).
  split_and!.
  - apply Hchar; [reflexivity | discriminate | discriminate].
  - apply Hprefix. discriminate.
  - apply Hbal. right. reflexivity.
  - apply Hcall. reflexivity.
  - apply Hconj. discriminate.
  - apply Helim. intros Hin. apply list_elem_of_In in Hin. simpl in Hin.
    destruct Hin as [Hin|[]]. discriminate Hin.
Defined.

End ErrorClaims.

(** * The syllogisms of the notebook *)

Section Syllogisms.

(** C1. The Barbara syllogism end to end: with the premises normalized
    from ["y" = "xy"] and ["z" = "yz"] over [x, y, z], eliminating [y] from
    their conjunction renders exactly ["(1-x)z = 0"]. *)
Theorem barbara_syllogism :
  (lhs1 ← parse "y"; rhs1 ← parse "xy";
   p1 ← create_normalized_equation lhs1 rhs1 ["x"; "y"; "z"];
   lhs2 ← parse "z"; rhs2 ← parse "yz";
   p2 ← create_normalized_equation lhs2 rhs2 ["x"; "y"; "z"];
   conclusion ← equation_conjunction p1 p2;
   eliminated ← eliminate_symbol conclusion "y";
   Ok (Equation_repr eliminated))
  = Ok "(1-x)z = 0".
Proof. vm_compute. reflexivity. Qed.

(** The normalized form printed by the notebook for ["x" = "xy"]. *)
Example all_xs_are_ys :
  (lhs ← parse "x"; rhs ← parse "xy";
   eq ← create_normalized_equation lhs rhs ["x"; "y"];
   Ok (Equation_repr eq))
  = Ok "x(1-y) = 0".
Proof. vm_compute. reflexivity. Qed.

(** The conjunction printed by the notebook before the elimination. *)
Example barbara_before_elimination :
  (lhs1 ← parse "y"; rhs1 ← parse "xy";
   p1 ← create_normalized_equation lhs1 rhs1 ["x"; "y"; "z"];
   lhs2 ← parse "z"; rhs2 ← parse "yz";
   p2 ← create_normalized_equation lhs2 rhs2 ["x"; "y"; "z"];
   conclusion ← equation_conjunction p1 p2;
   Ok (Equation_repr conclusion))
  = Ok "(1-x)(1-y)z + (1-x)y(1-z) + (1-x)yz + x(1-y)z = 0".
Proof. vm_compute. reflexivity. Qed.

(** "All Ys are Xs" and "No Zs are Ys" without an auxiliary symbol. *)
Example no_inference :
  (lhs1 ← parse "y"; rhs1 ← parse "xy";
   p1 ← create_normalized_equation lhs1 rhs1 ["x"; "y"; "z"];
   lhs2 ← parse "yz"; rhs2 ← parse "0";
   p2 ← create_normalized_equation lhs2 rhs2 ["x"; "y"; "z"];
   conclusion ← equation_conjunction p1 p2;
   eliminated ← eliminate_symbol conclusion "y";
   Ok (Equation_repr conclusion, Equation_repr eliminated))
  = Ok ("(1-x)y(1-z) + (1-x)yz + xyz = 0", "0 = 0").
Proof. vm_compute. reflexivity. Qed.

(** The same premises with the auxiliary symbol [v]. *)
Example some_xs_are_not_zs :
  (lhs1 ← parse "y"; rhs1 ← parse "vx";
   p1 ← create_normalized_equation lhs1 rhs1 ["x"; "y"; "z"; "v"];
   lhs2 ← parse "yz"; rhs2 ← parse "0";
   p2 ← create_normalized_equation lhs2 rhs2 ["x"; "y"; "z"; "v"];
   lhs3 ← parse "v(1-x)"; rhs3 ← parse "0";
   aux ← create_normalized_equation lhs3 rhs3 ["x"; "y"; "z"; "v"];
   conclusion ← equation_conjunction p1 p2;
   conclusion ← equation_conjunction conclusion aux;
   eliminated ← eliminate_symbol conclusion "y";
   Ok (Equation_repr eliminated))
  = Ok "(1-x)(1-z)v + (1-x)zv + xzv = 0".
Proof. vm_compute. reflexivity. Qed.

End Syllogisms.

(** * The order of the table is preserved *)

Section FirstOccurrences.
Context {A : Type} `{EqDecision A}.
Implicit Types (seen l : list A).

Lemma news_ext l : ∀ seen1 seen2,
  (∀ x, x ∈ l → x ∈ seen1 ↔ x ∈ seen2) → news seen1 l = news seen2 l.
Proof.
  induction l as [|x l IH]; intros seen1 seen2 Hsame; simpl; [done|].
  pose proof (Hsame x (list_elem_of_here _ _)) as Hx.
  destruct (decide (x ∈ seen1)), (decide (x ∈ seen2)); try tauto.
  - apply IH. intros y Hy. apply Hsame. by right.
  - f_equal. apply IH. intros y Hy. rewrite !elem_of_app.
    pose proof (Hsame y (list_elem_of_further _ _ _ Hy)). tauto.
Qed.

Lemma news_app l1 : ∀ seen l2,
  news seen (l1 ++ l2) = news seen l1 ++ news (seen ++ l1) l2.
Proof.
  induction l1 as [|x l1 IH]; intros seen l2; simpl.
  - by rewrite app_nil_r.
  - case_decide as Hx.
    + rewrite IH. f_equal. apply news_ext. intros y _.
      rewrite !elem_of_app, elem_of_cons.
      split; [tauto | intros [?|[->|?]]; auto].
    + simpl. rewrite IH. do 2 f_equal. by rewrite <- app_assoc.
Qed.

Lemma news_all_seen l : ∀ seen, (∀ x, x ∈ l → x ∈ seen) → news seen l = [].
Proof.
  induction l as [|x l IH]; intros seen Hall; simpl; [done|].
  rewrite decide_True by (apply Hall; left).
  apply IH. intros y Hy. apply Hall. by right.
Qed.

Lemma news_fresh l : ∀ seen,
  NoDup l → (∀ x, x ∈ l → x ∉ seen) → news seen l = l.
Proof.
  induction l as [|x l IH]; intros seen Hnd Hfresh; simpl; [done|].
  apply NoDup_cons in Hnd as [Hx Hnd].
  rewrite decide_False by (apply Hfresh; left).
  f_equal. apply IH; [done|]. intros y Hy.
  rewrite elem_of_app, list_elem_of_singleton.
  intros [Hin | ->]; [|done]. eapply Hfresh; [by right | done].
Qed.

Lemma fold_news l : ∀ seen,
  fold_left (λ ks x, if decide (x ∈ ks) then ks else ks ++ [x]) l seen
  = seen ++ news seen l.
Proof.
  induction l as [|x l IH]; intros seen; simpl.
  - by rewrite app_nil_r.
  - rewrite IH. case_decide; [done|]. by rewrite <- app_assoc.
Qed.
End FirstOccurrences.

Section FirstOccurrencesMap.
Context {A B : Type} `{EqDecision A, EqDecision B}.

Lemma news_fmap (f : A → B) `{!Inj (=) (=) f} (l : list A) : ∀ seen,
  news (f <$> seen) (f <$> l) = f <$> news seen l.
Proof.
  induction l as [|x l IH]; intros seen; [done|].
  rewrite fmap_cons. simpl.
  destruct (decide (x ∈ seen)) as [Hin|Hnin].
  - rewrite decide_True by (by apply list_elem_of_fmap_2). apply IH.
  - rewrite decide_False by (by rewrite (list_elem_of_fmap_inj f)).
    rewrite fmap_cons. f_equal. rewrite <- IH. by rewrite fmap_app.
Qed.
End FirstOccurrencesMap.

Section ProjectionOrder.

#[local] Instance cons_inj (b : Z) : Inj (=) (=) (cons b).
Proof. by intros v1 v2 [= ->]. Qed.

(** The projections of the enumeration over [n] symbols, taken at their
    first occurrence, are the enumeration over [n - 1] symbols. *)
Lemma news_delete_product n : ∀ k, (k < n)%nat →
  news [] (delete k <$> product [0; 1] n) = product [0; 1] (n - 1).
Proof.
  induction n as [|n IH]; intros k Hk; [lia|].
  replace (S n - 1)%nat with n by lia.
  rewrite product_bits_S, fmap_app, news_app, app_nil_l.
  destruct k as [|k].
  - assert (Hdel : ∀ b : Z, delete 0%nat <$> ((b ::.) <$> product [0; 1] n)
                            = product [0; 1] n).
    { intros b. rewrite <- list_fmap_compose. apply list_fmap_id. }
    rewrite !Hdel.
    rewrite news_fresh
      by (apply NoDup_product_bits || (intros x _; apply not_elem_of_nil)).
    rewrite news_all_seen by done. by rewrite app_nil_r.
  - assert (Hdel : ∀ b : Z,
              delete (S k) <$> ((b ::.) <$> product [0; 1] n)
              = (b ::.) <$> (delete k <$> product [0; 1] n)).
    { intros b. by rewrite <- !list_fmap_compose. }
    rewrite !Hdel.
    rewrite (news_ext ((1 ::.) <$> (delete k <$> product [0; 1] n))
               ((0 ::.) <$> (delete k <$> product [0; 1] n)) []).
    2:{ intros x (v1 & -> & _)%list_elem_of_fmap. split.
        - by intros (v0 & [=] & _)%list_elem_of_fmap.
        - by intros ?%elem_of_nil. }
    change (@nil (list Z)) with ((0 ::.) <$> @nil (list Z)) at 1.
    change (@nil (list Z)) with ((1 ::.) <$> @nil (list Z)) at 2.
    rewrite !news_fmap. rewrite IH by lia.
    destruct n as [|n]; [lia|].
    replace (S n - 1)%nat with n by lia. by rewrite product_bits_S.
    all: apply _.
Qed.

Lemma count_step_keys k ec vm :
  Dict.keys (count_step k ec vm)
  = if decide (delete k vm.1 ∈ Dict.keys ec) then Dict.keys ec
    else Dict.keys ec ++ [delete k vm.1].
Proof.
  assert (Hwith : Dict.keys (with_key (delete k vm.1) ec)
                  = if decide (delete k vm.1 ∈ Dict.keys ec) then Dict.keys ec
                    else Dict.keys ec ++ [delete k vm.1]).
  { unfold with_key. destruct (Dict.mem _ ec) eqn:Hmem; simpl.
    - apply DictFacts.mem_true in Hmem. by rewrite decide_True.
    - apply DictFacts.mem_false in Hmem. rewrite decide_False by done.
      by apply DictFacts.keys_set_fresh. }
  rewrite count_step_unfold. destruct (vm.2 =? 1)%Z; [|done].
  rewrite DictFacts.keys_set_present; [done|]. apply with_key_elem. auto.
Qed.

Lemma fold_count_keys k ms : ∀ ec,
  Dict.keys (fold_left (count_step k) ms ec)
  = Dict.keys ec ++ news (Dict.keys ec) (delete k <$> Dict.keys ms).
Proof.
  intros ec. rewrite <- fold_news. revert ec.
  induction ms as [|vm ms IH]; intros ec; [done|].
  simpl. rewrite IH. by rewrite count_step_keys.
Qed.

Lemma modulus_at_boolean lhs rhs variables values m :
  modulus_at lhs rhs variables values = Ok m → m = 0 ∨ m = 1.
Proof.
  unfold modulus_at.
  intros (l & _ & (r & _ & [= <-])%bind_Ok)%bind_Ok.
  destruct (l - r =? 0); auto.
Qed.

Lemma create_normalized_equation_listed lhs rhs variables eq :
  create_normalized_equation lhs rhs variables = Ok eq →
  symbols_of lhs ⊆ variables ∧ symbols_of rhs ⊆ variables.
Proof.
  intros Heq. split; intros x Hx;
    (destruct (decide (x ∈ variables)) as [|Hnot]; [done|]);
    rewrite (create_normalized_equation_unbound lhs rhs variables x) in Heq;
    (discriminate || done || (rewrite elem_of_app; auto)).
Qed.

(** The table of the normalizer follows the enumeration and holds 0/1
    moduli. *)
Lemma create_normalized_equation_enumerated lhs rhs variables eq :
  create_normalized_equation lhs rhs variables = Ok eq →
  symbols eq = variables ∧ enumerated eq ∧ boolean_moduli eq.
Proof.
  intros Heq.
  destruct (create_normalized_equation_listed _ _ _ _ Heq) as [Hl Hr].
  destruct (create_normalized_equation_Ok lhs rhs variables Hl Hr)
    as (g & Hg & Heq').
  rewrite Heq' in Heq. injection Heq as <-.
  unfold enumerated, boolean_moduli. cbn [symbols moduli].
  split_and!; [done | apply DictFacts.keys_tabulate |].
  apply Forall_fmap, Forall_fmap, Forall_forall. intros values Hv.
  simpl. eapply modulus_at_boolean. by apply Hg.
Qed.

(** So does the table of the conjunction. *)
Lemma equation_conjunction_enumerated a b ab :
  enumerated a → boolean_moduli a → enumerated b → boolean_moduli b →
  equation_conjunction a b = Ok ab →
  symbols ab = symbols a ∧ enumerated ab ∧ boolean_moduli ab.
Proof.
  intros Ha Hba Hb Hbb Hab.
  assert (Hsym : symbols a = symbols b).
  { destruct (decide (symbols a = symbols b)) as [|Hne]; [done|].
    by rewrite equation_conjunction_mismatch in Hab. }
  destruct (equation_conjunction_inv a b) as (ab' & Hab' & Hs & Hk & Hi & _);
    [by split; [apply enumerated_exhaustive|]..|done|].
  rewrite Hab' in Hab. injection Hab as <-.
  split_and!; [done | | apply Hi].
  unfold enumerated. by rewrite Hk, Hs.
Qed.

(** And so does the table of the eliminator. *)
Lemma eliminate_symbol_enumerated eq symbol eq' :
  enumerated eq → NoDup (symbols eq) →
  eliminate_symbol eq symbol = Ok eq' →
  enumerated eq' ∧ boolean_moduli eq'.
Proof.
  intros Henum Hdistinct Helim.
  assert (Hin : symbol ∈ symbols eq).
  { destruct (decide (symbol ∈ symbols eq)) as [|Hnot]; [done|].
    by rewrite eliminate_symbol_unknown in Helim. }
  apply list_elem_of_lookup in Hin as [k Hk].
  pose proof (lookup_lt_Some _ _ _ Hk) as Hlt.
  pose proof (enumerated_exhaustive eq Henum) as Hex.
  rewrite (eliminate_symbol_Ok eq symbol k) in Helim.
  - injection Helim as <-.
    unfold enumerated, boolean_moduli. cbn [symbols moduli]. split.
    + rewrite (keys_fmap_values (λ c, if (c =? 2)%Z then 1 else 0)).
      rewrite fold_count_keys. simpl.
      unfold enumerated in Henum. rewrite Henum.
      rewrite news_delete_product by done.
      rewrite length_delete; [done|]. by exists symbol.
    + apply Forall_fmap, Forall_fmap, Forall_forall. intros vc _. simpl.
      destruct (vc.2 =? 2)%Z; auto.
  - by apply index_NoDup.
  - intros vm Hvm. by rewrite (exhaustive_length eq vm).
Qed.

End ProjectionOrder.

(** * The claims on concrete equations *)

Section Witnesses.

Lemma boolean_moduli_intro eq :
  forallb (λ vm, (vm.2 =? 0)%Z || (vm.2 =? 1)%Z) (moduli eq) = true →
  boolean_moduli eq.
Proof.
  intros Hall. unfold boolean_moduli. apply Forall_fmap, Forall_forall.
  intros vm Hvm%list_elem_of_In. rewrite forallb_forall in Hall.
  specialize (Hall vm Hvm). simpl. lia.
Qed.

Lemma eliminate_symbol_projection_witness :
  ∃ eq', eliminate_symbol barbara_conclusion "y" = Ok eq'
    ∧ (forbids eq' [0; 1]
       ↔ forbids barbara_conclusion [0; 0; 1]
         ∧ forbids barbara_conclusion [0; 1; 1]).
Proof.
  destruct (eliminate_symbol_projection barbara_conclusion "y" 1)
    as (eq' & Helim & _ & _ & _ & _ & _ & Hforbids).
  - unfold exhaustive. simpl. reflexivity.
  - apply (bool_decide_unpack _). vm_compute. exact I.
  - reflexivity.
  - exists eq'. split; [exact Helim|]. apply (Hforbids [0; 1]).
    apply list_elem_of_In. simpl. tauto.
Defined.

Lemma equation_conjunction_laws_witness :
  ∃ ab ba,
    equation_conjunction no_xs all_xs = Ok ab
    ∧ equation_conjunction all_xs no_xs = Ok ba
    ∧ Equation_eq ab ba
    ∧ forbids ab [1].
Proof.
  destruct (equation_conjunction_laws no_xs all_xs tautology_x)
    as (ab & ba & aa & bc & ab_c & a_bc
        & Hab & Hba & _ & _ & _ & _ & _ & _ & Hcomm & _ & _ & Hmono).
  - split; [unfold exhaustive; simpl; reflexivity|].
    apply boolean_moduli_intro. reflexivity.
  - split; [unfold exhaustive; simpl; reflexivity|].
    apply boolean_moduli_intro. reflexivity.
  - split; [unfold exhaustive; simpl; reflexivity|].
    apply boolean_moduli_intro. reflexivity.
  - reflexivity.
  - reflexivity.
  - exists ab, ba. split_and!; [exact Hab | exact Hba | exact Hcomm |].
    apply Hmono. left. reflexivity.
Defined.

Lemma Equation_repr_render_witness :
  Equation_repr barbara_conclusion = render_Equation barbara_conclusion
  ∧ Equation_repr tautology_x = "0 = 0".
Proof.
  split.
  - apply (Equation_repr_render barbara_conclusion).
    + reflexivity.
    + apply boolean_moduli_intro. reflexivity.
  - apply (Equation_repr_render tautology_x).
    + reflexivity.
    + apply boolean_moduli_intro. reflexivity.
    + intros values. unfold forbids, tautology_x. simpl.
      repeat case_decide; discriminate.
Defined.

Lemma call_insensitive_to_extra_bindings_witness :
  ∃ v,
    call (MultiplicationFunction (SymbolFunction "y") (SymbolFunction "z"))
         (Dict.of_pairs [("x", 0); ("y", 1); ("z", 1); ("v", 0)]) = Ok v
    ∧ call (MultiplicationFunction (SymbolFunction "y") (SymbolFunction "z"))
           (Dict.of_pairs [("y", 1); ("z", 1)]) = Ok v.
Proof.
  apply (proj1 call_insensitive_to_extra_bindings).
  intros x Hx. apply list_elem_of_In in Hx. simpl in Hx.
  destruct Hx as [<- | [<- | []]]; split; (by eexists) || reflexivity.
Defined.

End Witnesses.

(** * Further properties of the parser *)

Section ParserShape.

Lemma top_terms_nonempty e : top_terms e ≠ [].
Proof.
  induction e as [symbol|l IHl r IHr|body IH|value]; simpl; try done.
  destruct (top_terms l); [done | by simpl].
Qed.

Lemma top_terms_single e t : In t (top_terms e) → is_product t = false.
Proof.
  revert t. induction e as [symbol|l IHl r IHr|body IH|value]; intros t; simpl.
  - by intros [<- | []].
  - intros [Hin|Hin]%in_app_or; auto.
  - by intros [<- | []].
  - by intros [<- | []].
Qed.

Lemma nest_cons t ts :
  ts ≠ [] → nest (t :: ts) = MultiplicationFunction t (nest ts).
Proof. by destruct ts. Qed.

(** The text of an expression of the grammar, followed by a text that
    parses to the product of [rest_terms], parses to the product of all the
    terms. *)
Lemma parse_repr_top_terms e :
  in_grammar e = true → ∀ rest rest_terms,
  (rest = "" ∧ rest_terms = []
   ∨ rest_terms ≠ [] ∧ parse rest = Ok (nest rest_terms)) →
  parse (repr e +:+ rest) = Ok (nest (top_terms e ++ rest_terms)).
Proof.
  assert (Hterm : ∀ text t, parse text = Ok t → is_product t = false →
            ∀ rest rest_terms,
            (rest = "" ∧ rest_terms = []
             ∨ rest_terms ≠ [] ∧ parse rest = Ok (nest rest_terms)) →
            parse (text +:+ rest) = Ok (nest ([t] ++ rest_terms))).
  { intros text t Ht Hsingle rest rest_terms [[-> ->] | [Hne Hrest]].
    - by rewrite StrFacts.app_nil_r.
    - simpl app. rewrite nest_cons by done. by apply parse_term_app. }
  induction e as [symbol|l IHl r IHr|body IH|value];
    intros Hg rest rest_terms Hrest.
  - destruct (parse_char_atom _ Hg) as (c & Hc & Hp).
    apply (Hterm _ (SymbolFunction symbol)); [|done..].
    rewrite Hc. by rewrite parse_equation_2.
  - simpl in Hg. apply andb_prop in Hg as [Hl Hr].
    simpl. rewrite StrFacts.app_assoc, <- app_assoc.
    apply IHl; [done|]. right. split.
    + intros [Habs _]%app_eq_nil. by apply top_terms_nonempty in Habs.
    + by apply IHr.
  - simpl in Hg.
    pose proof (IH Hg "" [] (or_introl (conj eq_refl eq_refl))) as Hbody.
    rewrite StrFacts.app_nil_r, app_nil_r in Hbody.
    apply (Hterm _ (NegationFunction (nest (top_terms body)))); [|done..].
    by apply parse_repr_negation.
  - destruct (parse_char_atom _ Hg) as (c & Hc & Hp).
    apply (Hterm _ (ConstantFunction value)); [|done..].
    rewrite Hc. by rewrite parse_equation_2.
Qed.

Lemma parse_repr_reassociate e :
  in_grammar e = true → parse (repr e) = Ok (reassociate e).
Proof.
  intros Hg.
  pose proof (parse_repr_top_terms e Hg "" [] (or_introl (conj eq_refl eq_refl)))
    as Hp.
  by rewrite StrFacts.app_nil_r, app_nil_r in Hp.
Qed.

(** Products evaluate the same however they are nested, failures
    included. *)
Lemma call_product_assoc a b c (values : gmap string Z) :
  call (MultiplicationFunction a (MultiplicationFunction b c)) values
  = call (MultiplicationFunction (MultiplicationFunction a b) c) values.
Proof.
  simpl. destruct (call a values); simpl; [|done].
  destruct (call b values); simpl; [|done].
  destruct (call c values); simpl; [|done].
  f_equal. lia.
Qed.

Lemma call_right_nested_app t ts t' ts' (values : gmap string Z) :
  call (right_nested t (ts ++ t' :: ts')) values
  = call (MultiplicationFunction (right_nested t ts) (right_nested t' ts'))
      values.
Proof.
  revert t. induction ts as [|u ts IH]; intros t; [done|].
  change (right_nested t ((u :: ts) ++ t' :: ts'))
    with (MultiplicationFunction t (right_nested u (ts ++ t' :: ts'))).
  change (right_nested t (u :: ts))
    with (MultiplicationFunction t (right_nested u ts)).
  rewrite <- call_product_assoc.
  cbn [call]. by rewrite IH.
Qed.

Lemma call_reassociate e (values : gmap string Z) :
  call (reassociate e) values = call e values.
Proof.
  unfold reassociate.
  induction e as [symbol|l IHl r IHr|body IH|value]; try done.
  - cbn [top_terms].
    destruct (top_terms l) as [|t ts] eqn:Hl;
      [by apply top_terms_nonempty in Hl|].
    destruct (top_terms r) as [|t' ts'] eqn:Hr;
      [by apply top_terms_nonempty in Hr|].
    cbn [nest app]. rewrite call_right_nested_app.
    cbn [nest] in IHl, IHr. cbn [call]. by rewrite IHl, IHr.
  - cbn [top_terms nest right_nested call]. by rewrite IH.
Qed.

(** X1. [parse] accepts exactly the texts of the expressions of the
    grammar: a text parses if and only if it is the rendering of some
    expression built from lowercase letters, the constants 0 and 1,
    negation and product. *)
Theorem parse_accepts_renderings (s : string) :
  (∃ e, parse s = Ok e) ↔ (∃ e, in_grammar e = true ∧ repr e = s).
Proof.
  split.
  - intros [e He]. exists e. apply parse_sound in He. tauto.
  - intros (e & Hg & <-).
    exists (reassociate e). by apply parse_repr_reassociate.
Qed.

(** X2. Parsing the text of an expression of the grammar returns that
    expression with its products re-associated to the right (inside
    negations too); nothing else of the tree changes. *)
Theorem parse_repr_is_reassociate (e : Function) :
  in_grammar e = true → parse (repr e) = Ok (reassociate e).
Proof. apply parse_repr_reassociate. Qed.

Lemma parse_repr_is_reassociate_witness :
  parse (repr (MultiplicationFunction
                 (MultiplicationFunction (SymbolFunction "x")
                    (NegationFunction
                       (MultiplicationFunction
                          (MultiplicationFunction (SymbolFunction "a")
                             (SymbolFunction "b"))
                          (SymbolFunction "c"))))
                 (SymbolFunction "z")))
  = Ok (MultiplicationFunction (SymbolFunction "x")
          (MultiplicationFunction
             (NegationFunction
                (MultiplicationFunction (SymbolFunction "a")
                   (MultiplicationFunction (SymbolFunction "b")
                      (SymbolFunction "c"))))
             (SymbolFunction "z"))).
Proof.
  apply (parse_repr_is_reassociate
           (MultiplicationFunction
              (MultiplicationFunction (SymbolFunction "x")
                 (NegationFunction
                    (MultiplicationFunction
                       (MultiplicationFunction (SymbolFunction "a")
                          (SymbolFunction "b"))
                       (SymbolFunction "c"))))
              (SymbolFunction "z"))).
  reflexivity.
Defined.

(** X3. Every tree [parse] returns is already in that form: no product
    it builds has a product as its left factor, at any depth. *)
Theorem parse_returns_right_nested (s : string) (e : Function) :
  parse s = Ok e → reassociate e = e.
Proof.
  intros Hp. pose proof (parse_sound _ _ Hp) as [Hr Hg].
  pose proof (parse_repr_reassociate e Hg) as Hp'.
  rewrite Hr, Hp in Hp'. by injection Hp' as <-.
Qed.

Lemma parse_returns_right_nested_witness :
  reassociate
    (MultiplicationFunction (NegationFunction (SymbolFunction "x"))
       (MultiplicationFunction (SymbolFunction "y") (ConstantFunction 1)))
  = MultiplicationFunction (NegationFunction (SymbolFunction "x"))
      (MultiplicationFunction (SymbolFunction "y") (ConstantFunction 1)).
Proof. apply (parse_returns_right_nested "(1-x)y1"). reflexivity. Defined.

(** X4. Rendering an expression of the grammar and parsing the text back
    keeps its meaning: the parsed expression evaluates like the original
    under every assignment, to the same value or the same failure. *)
Theorem parse_repr_preserves_call (e : Function) :
  in_grammar e = true →
  ∃ e', parse (repr e) = Ok e'
        ∧ ∀ values : gmap string Z, call e' values = call e values.
Proof.
  intros Hg. exists (reassociate e).
  split; [by apply parse_repr_reassociate|].
  intros values. apply call_reassociate.
Qed.

Lemma parse_repr_preserves_call_witness :
  ∃ e', parse "xyz" = Ok e'
        ∧ ∀ values : gmap string Z,
            call e' values
            = call (MultiplicationFunction
                      (MultiplicationFunction (SymbolFunction "x")
                         (SymbolFunction "y"))
                      (SymbolFunction "z")) values.
Proof.
  apply (parse_repr_preserves_call
           (MultiplicationFunction
              (MultiplicationFunction (SymbolFunction "x") (SymbolFunction "y"))
              (SymbolFunction "z"))).
  reflexivity.
Defined.

End ParserShape.

(** * Further properties of evaluation and of the scan for parentheses *)

Section EvaluationLaws.
Implicit Types (e l r : Function) (values : gmap string Z).

(** X5. An evaluation returns a value exactly when every symbol that
    occurs in the expression has a value in the assignment; when one has
    none it raises [KeyError], and it raises nothing else. *)
Theorem call_Ok_iff_bound e values :
  ((∃ v, call e values = Ok v)
   ↔ ∀ x, x ∈ symbols_of e → is_Some (values !! x))
  ∧ ((∃ x, x ∈ symbols_of e ∧ values !! x = None) →
     call e values = Raise KeyError)
  ∧ (∀ err, call e values = Raise err → err = KeyError).
Proof.
  split_and!.
  - split.
    + intros [v Hv]. by eapply call_Ok_bound.
    + apply call_bound.
  - intros (x & Hx & Hnone). by eapply call_unbound.
  - intros err. apply call_Raise.
Qed.

Lemma call_Ok_iff_bound_witness :
  call (MultiplicationFunction (SymbolFunction "x")
          (NegationFunction (SymbolFunction "y")))
       (Dict.of_pairs [("x", 1)]) = Raise KeyError.
Proof.
  apply (proj1 (proj2 (call_Ok_iff_bound _ _))).
  exists "y". split; [|reflexivity].
  apply list_elem_of_In. simpl. tauto.
Defined.

(** X6. Evaluation follows the laws of the arithmetic it is written in,
    failures included: a double negation evaluates like its body, and a
    product evaluates the same with its factors swapped or re-nested. *)
Theorem call_laws e l r values :
  call (NegationFunction (NegationFunction e)) values = call e values
  ∧ call (MultiplicationFunction l r) values
    = call (MultiplicationFunction r l) values
  ∧ call (MultiplicationFunction e (MultiplicationFunction l r)) values
    = call (MultiplicationFunction (MultiplicationFunction e l) r) values.
Proof.
  split_and!.
  - simpl. destruct (call e values); simpl; [f_equal; lia | done].
  - simpl.
    destruct (call l values) as [a|el] eqn:Hl,
             (call r values) as [b|er] eqn:Hr; simpl; try done.
    + f_equal. lia.
    + by rewrite (call_Raise _ _ _ Hl), (call_Raise _ _ _ Hr).
  - apply call_product_assoc.
Qed.

(** X7. On an expression that evaluates to 0 or 1, Boole's index law and
    law of contradiction hold: [e e] evaluates like [e], [e (1-e)]
    evaluates to 0, and [(1-e)] evaluates to the other of 0 and 1. *)
Theorem call_index_law e values :
  call e values = Ok 0 ∨ call e values = Ok 1 →
  call (MultiplicationFunction e e) values = call e values
  ∧ call (MultiplicationFunction e (NegationFunction e)) values = Ok 0
  ∧ (call (NegationFunction e) values = Ok 1 ↔ call e values = Ok 0)
  ∧ (call (NegationFunction e) values = Ok 0 ↔ call e values = Ok 1).
Proof.
  simpl. intros [-> | ->]; simpl; split_and!; try done.
Qed.

Lemma call_index_law_witness :
  call (MultiplicationFunction (SymbolFunction "x")
          (NegationFunction (SymbolFunction "x")))
       (Dict.of_pairs [("x", 1)]) = Ok 0.
Proof.
  destruct (call_index_law (SymbolFunction "x") (Dict.of_pairs [("x", 1)]))
    as (_ & Hzero & _); [right; reflexivity | exact Hzero].
Defined.

Lemma get_drop (s : string) : ∀ k c t,
  Str.drop k s = String c t → String.get k s = Some c.
Proof.
  induction s as [|a s IH]; intros k c t.
  - by destruct k.
  - destruct k as [|k]; simpl.
    + by intros [= -> _].
    + apply IH.
Qed.

(** X8. When [matching_parenthesis] returns an index, the character there
    is a [")"]; and on a text that starts with a negation of the grammar it
    returns the index of the parenthesis that closes that negation,
    whatever the negation contains and whatever follows it. *)
Theorem matching_parenthesis_closes :
  (∀ (s : string) to,
     matching_parenthesis s = Some to → String.get to s = Some ")"%char)
  ∧ (∀ body (rest : string),
       in_grammar body = true →
       matching_parenthesis (repr (NegationFunction body) +:+ rest)
       = Some (String.length (repr (NegationFunction body)) - 1)%nat).
Proof.
  split.
  - intros s to Hto. unfold matching_parenthesis in Hto.
    apply matching_parenthesis_from_Some in Hto as (k & -> & Hk).
    by apply get_drop in Hk.
  - intros body rest Hg. unfold matching_parenthesis. simpl.
    rewrite !StrFacts.app_assoc.
    rewrite matching_parenthesis_from_repr by (done || lia).
    simpl. rewrite StrFacts.length_app. simpl. f_equal. lia.
Qed.

Lemma matching_parenthesis_closes_witness :
  matching_parenthesis "(1-x(1-y))z(1-v)" = Some 9%nat.
Proof.
  apply (proj2 matching_parenthesis_closes
           (MultiplicationFunction (SymbolFunction "x")
              (NegationFunction (SymbolFunction "y")))
           "z(1-v)").
  reflexivity.
Defined.

End EvaluationLaws.

(** * Further properties of the normalizer *)

Section NormalizerLaws.
Implicit Types (lhs rhs e : Function) (variables : list Symbol).

Lemma Equation_repr_all_zero eq :
  (∀ vm, vm ∈ moduli eq → vm.2 = 0) → Equation_repr eq = "0 = 0".
Proof.
  intros Hzero.
  assert (Hnone : filter (λ vm : list Z * Z, vm.2 ≠ 0) (moduli eq) = []).
  { revert Hzero. induction (moduli eq) as [|vm ms IH]; intros Hzero; [done|].
    rewrite filter_cons_False by (intros Hne; apply Hne, Hzero; left).
    apply IH. intros vm' Hvm'. apply Hzero. by right. }
  unfold Equation_repr, repr_terms.
  by rewrite repr_terms_filter, Hnone.
Qed.

(** X9. The normalizer returns an equation exactly when every symbol of
    [lhs] and [rhs] is in the list of variables; with a symbol that is not
    listed it raises [KeyError], whatever the other symbols and the length
    of the list. *)
Theorem create_normalized_equation_Ok_iff_listed lhs rhs variables :
  ((∃ eq, create_normalized_equation lhs rhs variables = Ok eq)
   ↔ symbols_of lhs ⊆ variables ∧ symbols_of rhs ⊆ variables)
  ∧ ((∃ x, x ∈ symbols_of lhs ++ symbols_of rhs ∧ x ∉ variables) →
     create_normalized_equation lhs rhs variables = Raise KeyError).
Proof.
  split.
  - split.
    + intros [eq Heq]. by eapply create_normalized_equation_listed.
    + intros [Hl Hr].
      destruct (create_normalized_equation_Ok lhs rhs variables Hl Hr)
        as (g & _ & Heq). eauto.
  - intros (x & Hx & Hnot). by eapply create_normalized_equation_unbound.
Qed.

Lemma create_normalized_equation_Ok_iff_listed_witness :
  create_normalized_equation
    (SymbolFunction "y")
    (MultiplicationFunction (SymbolFunction "v") (SymbolFunction "x"))
    ["x"; "y"; "z"]
  = Raise KeyError.
Proof.
  apply (proj2 (create_normalized_equation_Ok_iff_listed _ _ _)).
  exists "v". split.
  - apply list_elem_of_In. simpl. tauto.
  - intros Hin%list_elem_of_In. simpl in Hin.
    destruct Hin as [Hin|[Hin|[Hin|[]]]]; discriminate Hin.
Defined.

Lemma modulus_at_swap lhs rhs variables (values : list Z) :
  modulus_at lhs rhs variables values = modulus_at rhs lhs variables values.
Proof.
  unfold modulus_at.
  destruct (call lhs _) as [l|el] eqn:Hl, (call rhs _) as [r|er] eqn:Hr;
    simpl; try done.
  - f_equal. destruct (Z.eqb_spec (l - r) 0), (Z.eqb_spec (r - l) 0); lia.
  - by rewrite (call_Raise _ _ _ Hl), (call_Raise _ _ _ Hr).
Qed.

(** X10. The normalizer does not tell the two sides of an equation apart:
    [lhs = rhs] and [rhs = lhs] give the same result, the same equation or
    the same failure. *)
Theorem create_normalized_equation_swap lhs rhs variables :
  create_normalized_equation lhs rhs variables
  = create_normalized_equation rhs lhs variables.
Proof.
  rewrite !create_normalized_equation_unfold. f_equal.
  apply for_each_ext. intros moduli values. by rewrite modulus_at_swap.
Qed.

(** X11. An equation between an expression and itself forbids nothing:
    when the symbols of [e] are listed, the normalizer returns a table of
    zeros, which renders as ["0 = 0"]. *)
Theorem create_normalized_equation_same e variables :
  symbols_of e ⊆ variables →
  ∃ eq, create_normalized_equation e e variables = Ok eq
    ∧ (∀ values, ¬ forbids eq values)
    ∧ Equation_repr eq = "0 = 0".
Proof.
  intros He.
  destruct (create_normalized_equation_Ok e e variables He He)
    as (g & Hg & Heq).
  assert (Hzero : ∀ values, values ∈ product [0; 1] (length variables) →
                            g values = 0).
  { intros values Hv. specialize (Hg values Hv). unfold modulus_at in Hg.
    destruct (call e _) as [l|]; simpl in Hg; [|done].
    rewrite Z.sub_diag in Hg. by injection Hg as <-. }
  eexists. split; [exact Heq|]. split.
  - intros values. unfold forbids. cbn [moduli].
    rewrite DictFacts.get_tabulate. case_decide as Hv; [|done].
    rewrite (Hzero values Hv). done.
  - apply Equation_repr_all_zero. cbn [moduli].
    intros vm (values & -> & Hv)%list_elem_of_fmap. by apply Hzero.
Qed.

Lemma create_normalized_equation_same_witness :
  ∃ eq, create_normalized_equation
          (MultiplicationFunction (SymbolFunction "x")
             (NegationFunction (SymbolFunction "y")))
          (MultiplicationFunction (SymbolFunction "x")
             (NegationFunction (SymbolFunction "y")))
          ["x"; "y"; "z"] = Ok eq
    ∧ (∀ values, ¬ forbids eq values)
    ∧ Equation_repr eq = "0 = 0".
Proof.
  apply create_normalized_equation_same.
  intros s Hs. apply list_elem_of_In in Hs. apply list_elem_of_In.
  simpl in *. tauto.
Defined.

(** X12. Over an empty list of variables the normalizer evaluates each
    side once, under the empty assignment, and stores one modulus for the
    empty tuple; the equation renders as ["0 = 0"] when the two values are
    equal and as [" = 0"], a single empty term, when they differ. *)
Theorem create_normalized_equation_no_variables lhs rhs :
  create_normalized_equation lhs rhs []
  = (l ← call lhs ∅; r ← call rhs ∅;
     Ok (mkEquation [] [([], if (l =? r)%Z then 0 else 1)]))
  ∧ Equation_repr <$> create_normalized_equation lhs rhs []
    = (l ← call lhs ∅; r ← call rhs ∅;
       Ok (if (l =? r)%Z then "0 = 0" else " = 0")).
Proof.
  unfold create_normalized_equation. simpl.
  change (Dict.of_pairs []) with (∅ : gmap string Z).
  destruct (call lhs ∅) as [l|]; simpl; [|done].
  destruct (call rhs ∅) as [r|]; simpl; [|done].
  destruct (Z.eqb_spec (l - r) 0), (Z.eqb_spec l r); try lia; done.
Qed.

End NormalizerLaws.

(** * Further properties of the conjunction *)

Section ConjunctionEdges.
Implicit Types (a b t : Equation).

Lemma for_each_Ok_iff {A S} (body : S → A → result S) (ok : A → Prop)
    (items : list A) :
  (∀ st x, (∃ st', body st x = Ok st') ↔ ok x) →
  ∀ st, (∃ st', for_each items body st = Ok st') ↔ ∀ x, x ∈ items → ok x.
Proof.
  intros Hbody. induction items as [|x items IH]; intros st; simpl.
  - split; [by intros _ x ?%elem_of_nil | eauto].
  - split.
    + intros [st' Hst']. apply bind_Ok in Hst' as (st1 & H1 & Hrest).
      intros y [-> | Hy]%elem_of_cons.
      * apply (Hbody st). eauto.
      * eapply IH; eauto.
    + intros Hall.
      destruct (proj2 (Hbody st x)) as [st1 H1]; [apply Hall; left|].
      rewrite H1. simpl. apply IH. intros y Hy. apply Hall. by right.
Qed.

Lemma for_each_Raise {A S} (body : S → A → result S) (P : exn → Prop)
    (items : list A) :
  (∀ st x e, body st x = Raise e → P e) →
  ∀ st e, for_each items body st = Raise e → P e.
Proof.
  intros Hbody. induction items as [|x items IH]; intros st e; simpl; [done|].
  destruct (body st x) as [st1|e1] eqn:H1; simpl.
  - apply IH.
  - intros [= <-]. by eapply Hbody.
Qed.

(** X13. With equal symbol lists, the conjunction looks a key of [a] up
    in [b] only when its modulus in [a] is not 1: it returns an equation
    exactly when every key of [a] has modulus 1 in [a] or is a key of [b],
    and otherwise it raises [KeyError] and nothing else. *)
Theorem equation_conjunction_Ok_iff a b :
  symbols a = symbols b →
  ((∃ ab, equation_conjunction a b = Ok ab)
   ↔ ∀ key, key ∈ Dict.keys (moduli a) →
            Dict.get key (moduli a) = Some 1 ∨ key ∈ Dict.keys (moduli b))
  ∧ (∀ e, equation_conjunction a b = Raise e → e = KeyError).
Proof.
  intros Hsym. unfold equation_conjunction.
  rewrite bool_decide_eq_true_2 by done. cbn [negb].
  set (body := λ (moduli' : list (list Z * Z)) (key : list Z),
         ma ← Dict.lookup key (moduli a);
         if (ma =? 1)%Z then Ok (Dict.set key 1 moduli')
         else
           mb ← Dict.lookup key (moduli b);
           if (mb =? 1)%Z then Ok (Dict.set key 1 moduli')
           else Ok (Dict.set key 0 moduli')).
  set (ok := λ key : list Z,
         ∃ ma, Dict.get key (moduli a) = Some ma
               ∧ (ma = 1 ∨ key ∈ Dict.keys (moduli b))).
  assert (Hbody : ∀ st key, (∃ st', body st key = Ok st') ↔ ok key).
  { intros st key. unfold body, ok, Dict.lookup.
    destruct (Dict.get key (moduli a)) as [ma|]; simpl.
    - destruct (Z.eqb_spec ma 1) as [->|Hma].
      + split; eauto.
      + destruct (Dict.get key (moduli b)) as [mb|] eqn:Hb; simpl.
        * split; [intros _ | intros _; destruct (mb =? 1)%Z; eauto].
          exists ma. split; [done|]. right.
          apply DictFacts.get_is_Some. by rewrite Hb.
        * split; [by intros [? ?]|].
          intros (m' & [= <-] & [?|Hin]); [done|].
          apply DictFacts.get_is_Some in Hin. rewrite Hb in Hin.
          by destruct Hin.
    - split; [by intros [? ?] | by intros (? & ? & _)]. }
  split.
  - split.
    + intros [ab Hab]. apply bind_Ok in Hab as (ms & Hms & _).
      intros key Hkey.
      destruct (proj1 (for_each_Ok_iff body ok _ Hbody []) (ex_intro _ ms Hms)
                  key Hkey) as (ma & Hma & [-> | Hb]); auto.
    + intros Hall.
      destruct (proj2 (for_each_Ok_iff body ok (Dict.keys (moduli a)) Hbody []))
        as [ms Hms].
      * intros key Hkey.
        destruct (proj2 (DictFacts.get_is_Some key (moduli a)) Hkey) as [ma Hma].
        exists ma. split; [done|].
        destruct (Hall key Hkey) as [H1 | Hb]; [left; congruence | by right].
      * fold body. rewrite Hms. simpl. eauto.
  - intros e. fold body.
    destruct (for_each _ body []) as [ms|e'] eqn:Hfe; simpl; [done|].
    intros [= <-].
    apply (for_each_Raise body (λ e, e = KeyError)) in Hfe; [done|].
    intros st key e. unfold body, Dict.lookup.
    destruct (Dict.get key (moduli a)) as [ma|]; simpl; [|by intros [= <-]].
    destruct (ma =? 1)%Z; [done|].
    destruct (Dict.get key (moduli b)) as [mb|]; simpl; [|by intros [= <-]].
    by destruct (mb =? 1)%Z.
Qed.

Lemma equation_conjunction_Ok_iff_witness :
  ∃ ab, equation_conjunction (mkEquation ["x"] [([0], 1); ([1], 1)])
                              (mkEquation ["x"] [])
        = Ok ab.
Proof.
  apply (proj1 (equation_conjunction_Ok_iff
                  (mkEquation ["x"] [([0], 1); ([1], 1)])
                  (mkEquation ["x"] []) eq_refl)).
  intros key Hkey. left. apply list_elem_of_In in Hkey. simpl in Hkey.
  destruct Hkey as [<- | [<- | []]]; reflexivity.
Defined.

(** X14. The conjunction has a neutral and an absorbing element: joined
    with an equation that forbids nothing, [a] stays the same equation, and
    joined with an equation that forbids every assignment it becomes that
    equation. *)
Theorem equation_conjunction_neutral_absorbing a t :
  Equation_inv a → Equation_inv t → symbols a = symbols t →
  ((∀ values, ¬ forbids t values) →
   ∃ at', equation_conjunction a t = Ok at' ∧ Equation_eq at' a)
  ∧ ((∀ values, values ∈ product [0; 1] (length (symbols t)) →
                forbids t values) →
     ∃ at', equation_conjunction a t = Ok at' ∧ Equation_eq at' t).
Proof.
  intros Ha Ht Hsym.
  destruct (equation_conjunction_inv a t Ha Ht Hsym)
    as (at' & Hat & Hs & Hk & _ & Hget).
  pose proof (same_keys a t (proj1 Ha) (proj1 Ht) Hsym) as Hkeys.
  split; intros Hforb; exists at'; (split; [done|]).
  - split; [done|]. intros values. rewrite Hget.
    destruct (decide (values ∈ Dict.keys (moduli a))) as [Hin|Hnin].
    + assert (Hzero : (default 0 (Dict.get values (moduli t)) =? 1) = false).
      { apply not_true_is_false. rewrite <- forbids_default. apply Hforb. }
      apply DictFacts.get_is_Some in Hin as [m Hm].
      unfold either. rewrite Hzero, orb_false_r.
      rewrite get_default_boolean by apply Ha. by rewrite Hm.
    + symmetry. by apply DictFacts.get_None.
  - split; [congruence|]. intros values. rewrite Hget.
    destruct (decide (values ∈ Dict.keys (moduli a))) as [Hin|Hnin].
    + assert (Hone : forbids t values).
      { apply Hforb. by apply (exhaustive_elem t), Hkeys; [apply Ht|]. }
      rewrite either_decide, decide_True by auto. by rewrite Hone.
    + symmetry. apply DictFacts.get_None. by rewrite <- Hkeys.
Qed.

Lemma equation_conjunction_neutral_absorbing_witness :
  ∃ at', equation_conjunction no_xs tautology_x = Ok at'
         ∧ Equation_eq at' no_xs.
Proof.
  apply (equation_conjunction_neutral_absorbing no_xs tautology_x).
  - split; [unfold exhaustive; simpl; reflexivity|].
    apply boolean_moduli_intro. reflexivity.
  - split; [unfold exhaustive; simpl; reflexivity|].
    apply boolean_moduli_intro. reflexivity.
  - reflexivity.
  - intros values. unfold forbids, tautology_x. simpl.
    repeat case_decide; discriminate.
Defined.

(** X15. The conjunction keeps the invariant of equations: on two
    exhaustive tables of 0/1 moduli over the same symbols it returns an
    exhaustive table of 0/1 moduli over those symbols, with the keys of [a]
    in the order of [a]; so a table in the order of the enumeration gives a
    table in that order. *)
Theorem equation_conjunction_keeps_invariant a b :
  Equation_inv a → Equation_inv b → symbols a = symbols b →
  ∃ ab, equation_conjunction a b = Ok ab
    ∧ symbols ab = symbols a
    ∧ Dict.keys (moduli ab) = Dict.keys (moduli a)
    ∧ Equation_inv ab
    ∧ (enumerated a → enumerated ab).
Proof.
  intros Ha Hb Hsym.
  destruct (equation_conjunction_inv a b Ha Hb Hsym)
    as (ab & Hab & Hs & Hk & Hinv & _).
  exists ab. split_and!; try done.
  unfold enumerated. by rewrite Hk, Hs.
Qed.

Lemma equation_conjunction_keeps_invariant_witness :
  ∃ ab, equation_conjunction no_xs all_xs = Ok ab
    ∧ symbols ab = ["x"]
    ∧ Dict.keys (moduli ab) = [[0]; [1]]
    ∧ Equation_inv ab
    ∧ (enumerated no_xs → enumerated ab).
Proof.
  apply (equation_conjunction_keeps_invariant no_xs all_xs).
  - split; [unfold exhaustive; simpl; reflexivity|].
    apply boolean_moduli_intro. reflexivity.
  - split; [unfold exhaustive; simpl; reflexivity|].
    apply boolean_moduli_intro. reflexivity.
  - reflexivity.
Defined.

End ConjunctionEdges.

(** * Further properties of the eliminator *)

Section EliminatorLaws.
Implicit Types (eq a b : Equation) (symbol : Symbol) (k : nat).

(** The run of the eliminator on an exhaustive table, with the symbols it
    keeps given by position. *)
Lemma eliminate_symbol_forbids eq symbol k :
  exhaustive eq → NoDup (symbols eq) → symbols eq !! k = Some symbol →
  ∃ eq', eliminate_symbol eq symbol = Ok eq'
    ∧ symbols eq' = delete k (symbols eq)
    ∧ exhaustive eq'
    ∧ boolean_moduli eq'
    ∧ ∀ values2, values2 ∈ product [0; 1] (length (symbols eq) - 1) →
        (forbids eq' values2
         ↔ forbids eq (completion k 0 values2)
           ∧ forbids eq (completion k 1 values2)).
Proof.
  intros Hex Hdistinct Hk.
  pose proof (lookup_lt_Some _ _ _ Hk) as Hlt.
  pose proof (index_NoDup _ _ _ Hdistinct Hk) as Hindex.
  destruct (fold_count k (moduli eq) [] (NoDup_nil_2 (A:=list Z)))
    as (Hnd & Hkeys & Hget).
  set (ec := fold_left (count_step k) (moduli eq) []) in *.
  set (mark := λ c : Z, if (c =? 2)%Z then 1 else 0).
  assert (Hlen' : length (delete k (symbols eq)) = (length (symbols eq) - 1)%nat).
  { rewrite length_delete; [done|]. by exists symbol. }
  assert (Helem : ∀ x, x ∈ Dict.keys ec
                       ↔ x ∈ product [0; 1] (length (symbols eq) - 1)).
  { intros x. rewrite Hkeys. split.
    - intros [[]%elem_of_nil | (v & -> & Hv)%list_elem_of_fmap].
      apply delete_product; [|done]. by apply (exhaustive_elem eq).
    - intros Hx. right. apply list_elem_of_fmap.
      exists (completion k 0 x). split.
      + symmetry. apply delete_completion.
        apply elem_of_product in Hx as [-> _]. lia.
      + apply (exhaustive_elem eq _ Hex), completion_product; auto. }
  exists (mkEquation (delete k (symbols eq)) ((λ vc, (vc.1, mark vc.2)) <$> ec)).
  split_and!.
  - apply eliminate_symbol_Ok; [done|].
    intros vm Hvm. by rewrite (exhaustive_length eq vm).
  - done.
  - unfold exhaustive. cbn [symbols moduli].
    rewrite keys_fmap_values, Hlen'.
    apply NoDup_Permutation; [done | apply NoDup_product_bits | done].
  - unfold boolean_moduli. cbn [moduli].
    apply Forall_fmap, Forall_fmap, Forall_forall.
    intros vc _. unfold mark. simpl. destruct (vc.2 =? 2)%Z; auto.
  - intros values2 Hv2. unfold forbids at 1. cbn [moduli].
    rewrite get_fmap_values.
    destruct (proj2 (DictFacts.get_is_Some values2 ec)) as [c Hc];
      [by apply Helem|].
    pose proof (Hget values2) as Hc'. rewrite Hc in Hc'. simpl in Hc'.
    rewrite (tally_completions eq k values2 Hex Hlt Hv2) in Hc'.
    rewrite Hc. simpl. unfold mark.
    destruct (decide (forbids eq (completion k 0 values2))),
             (decide (forbids eq (completion k 1 values2)));
      subst c; simpl; split; (done || tauto || (by intros [=])).
Qed.

Lemma Equation_inv_intro eq :
  enumerated eq →
  forallb (λ vm, (vm.2 =? 0)%Z || (vm.2 =? 1)%Z) (moduli eq) = true →
  Equation_inv eq.
Proof.
  intros Henum Hbool. split; [by apply enumerated_exhaustive|].
  by apply boolean_moduli_intro.
Qed.

(** X16. The eliminator keeps the form of equations: from a table in the
    order of the enumeration over distinct symbols, whatever its moduli, it
    returns a table of 0/1 moduli in the order of the enumeration over the
    remaining symbols, which are distinct and no longer contain the
    symbol. *)
Theorem eliminate_symbol_keeps_invariant eq symbol :
  enumerated eq → NoDup (symbols eq) → symbol ∈ symbols eq →
  ∃ eq', eliminate_symbol eq symbol = Ok eq'
    ∧ enumerated eq' ∧ boolean_moduli eq'
    ∧ NoDup (symbols eq') ∧ symbol ∉ symbols eq'.
Proof.
  intros Henum Hdistinct [k Hk]%list_elem_of_lookup.
  destruct (eliminate_symbol_forbids eq symbol k) as (eq' & Helim & Hs & _);
    [by apply enumerated_exhaustive | done..|].
  destruct (eliminate_symbol_enumerated eq symbol eq' Henum Hdistinct Helim)
    as [Henum' Hbool'].
  exists eq'. split_and!; try done.
  - rewrite Hs. eapply sublist_NoDup; [done | apply sublist_delete].
  - rewrite Hs, (delete_filter _ symbol) by done.
    rewrite list_elem_of_filter. tauto.
Qed.

Lemma eliminate_symbol_keeps_invariant_witness :
  ∃ eq', eliminate_symbol barbara_conclusion "y" = Ok eq'
    ∧ enumerated eq' ∧ boolean_moduli eq'
    ∧ NoDup (symbols eq') ∧ "y" ∉ symbols eq'.
Proof.
  apply (eliminate_symbol_keeps_invariant barbara_conclusion "y").
  - reflexivity.
  - apply (bool_decide_unpack _). vm_compute. exact I.
  - apply list_elem_of_In. simpl. tauto.
Defined.

Lemma pop_Raise {A} (l : list A) : ∀ i,
  (length l ≤ i)%nat → pop i l = Raise IndexError.
Proof.
  induction l as [|y l IH]; intros i Hi; [by destruct i|].
  destruct i as [|i]; [simpl in Hi; lia|].
  change (pop (S i) (y :: l)) with ((y ::.) <$> pop i l).
  rewrite IH by (simpl in Hi; lia). done.
Qed.

(** X17. A key of the table that is too short to hold the position of the
    symbol makes the eliminator raise [IndexError]: with the symbol at
    position [k] of distinct symbols and some key of length at most [k],
    the call fails on [pop] and returns no equation. *)
Theorem eliminate_symbol_short_key eq symbol k :
  NoDup (symbols eq) → symbols eq !! k = Some symbol →
  (∃ vm, vm ∈ moduli eq ∧ (length vm.1 ≤ k)%nat) →
  eliminate_symbol eq symbol = Raise IndexError.
Proof.
  intros Hdistinct Hk Hshort.
  pose proof (index_NoDup _ _ _ Hdistinct Hk) as Hindex.
  unfold eliminate_symbol.
  match goal with
  | |- context [for_each _ ?b _] => set (body := b)
  end.
  assert (Hloop : ∀ ms ec,
            (∃ vm, vm ∈ ms ∧ (length vm.1 ≤ k)%nat) →
            for_each ms body ec = Raise IndexError).
  { induction ms as [|vm ms IH]; intros ec (vm' & Hin & Hlen).
    - by apply elem_of_nil in Hin.
    - destruct (decide (length vm.1 ≤ k)%nat) as [Hvm|Hvm].
      + apply for_each_raise. unfold body. rewrite Hindex.
        cbn [mbind result_bind]. by rewrite pop_Raise.
      + assert (Hstep : body ec vm = Ok (count_step k ec vm)).
        { unfold body. rewrite Hindex. cbn [mbind result_bind].
          rewrite pop_Ok by lia. cbn [mbind result_bind].
          rewrite count_step_unfold. fold (with_key (delete k vm.1) ec).
          destruct (vm.2 =? 1)%Z; [|done].
          unfold Dict.lookup.
          destruct (proj2 (DictFacts.get_is_Some (delete k vm.1)
                             (with_key (delete k vm.1) ec))) as [c Hc].
          { apply with_key_elem. auto. }
          by rewrite Hc. }
        simpl. rewrite Hstep. simpl. apply IH.
        apply elem_of_cons in Hin as [-> | Hin]; [lia | eauto]. }
  by rewrite Hloop.
Qed.

Lemma eliminate_symbol_short_key_witness :
  eliminate_symbol
    (mkEquation ["x"; "y"] [([0; 0], 1); ([0], 1); ([1; 0], 0); ([1; 1], 0)])
    "y"
  = Raise IndexError.
Proof.
  apply (eliminate_symbol_short_key _ "y" 1).
  - apply (bool_decide_unpack _). vm_compute. exact I.
  - reflexivity.
  - exists ([0], 1). split; [|simpl; lia].
    apply list_elem_of_In. simpl. tauto.
Defined.

(** X18. Eliminating a symbol the equation does not depend on changes
    nothing else: when each assignment of the other symbols is forbidden
    with the symbol at 0 exactly when it is forbidden with the symbol at 1,
    the result forbids it exactly when the equation did, for either value
    of the symbol. *)
Theorem eliminate_symbol_independent eq symbol k :
  exhaustive eq → NoDup (symbols eq) → symbols eq !! k = Some symbol →
  (∀ values2, values2 ∈ product [0; 1] (length (symbols eq) - 1) →
     forbids eq (completion k 0 values2)
     ↔ forbids eq (completion k 1 values2)) →
  ∃ eq', eliminate_symbol eq symbol = Ok eq'
    ∧ ∀ values2 (bit : Z),
        values2 ∈ product [0; 1] (length (symbols eq) - 1) →
        bit = 0 ∨ bit = 1 →
        (forbids eq' values2 ↔ forbids eq (completion k bit values2)).
Proof.
  intros Hex Hdistinct Hk Hindep.
  destruct (eliminate_symbol_forbids eq symbol k Hex Hdistinct Hk)
    as (eq' & Helim & _ & _ & _ & Hforbids).
  exists eq'. split; [done|]. intros values2 bit Hv2 Hb.
  rewrite (Hforbids values2 Hv2).
  pose proof (Hindep values2 Hv2). destruct Hb as [-> | ->]; tauto.
Qed.

Lemma eliminate_symbol_independent_witness :
  ∃ eq', eliminate_symbol
           (mkEquation ["x"; "y"]
              [([0; 0], 0); ([0; 1], 0); ([1; 0], 1); ([1; 1], 1)]) "y"
         = Ok eq'
    ∧ ∀ values2 (bit : Z),
        values2 ∈ product [0; 1] 1 → bit = 0 ∨ bit = 1 →
        (forbids eq' values2
         ↔ forbids (mkEquation ["x"; "y"]
                      [([0; 0], 0); ([0; 1], 0); ([1; 0], 1); ([1; 1], 1)])
             (completion 1 bit values2)).
Proof.
  apply (eliminate_symbol_independent
           (mkEquation ["x"; "y"]
              [([0; 0], 0); ([0; 1], 0); ([1; 0], 1); ([1; 1], 1)]) "y" 1).
  - unfold exhaustive. simpl. reflexivity.
  - apply (bool_decide_unpack _). vm_compute. exact I.
  - reflexivity.
  - intros values2 Hv2. apply list_elem_of_In in Hv2. simpl in Hv2.
    destruct Hv2 as [<- | [<- | []]]; unfold forbids; simpl; split;
      intros Hf; first [discriminate Hf | reflexivity].
Defined.

(** X19. The syllogism step as a whole: eliminating a symbol from the
    conjunction of two equations forbids an assignment of the other
    symbols exactly when, for each of the two values of the symbol, one of
    the two equations forbids the completed assignment.  In particular it
    forbids whatever the eliminations of [a] or of [b] alone forbid. *)
Theorem eliminate_conjunction a b symbol k :
  Equation_inv a → Equation_inv b → symbols a = symbols b →
  NoDup (symbols a) → symbols a !! k = Some symbol →
  ∃ ab e ea eb,
    equation_conjunction a b = Ok ab
    ∧ eliminate_symbol ab symbol = Ok e
    ∧ eliminate_symbol a symbol = Ok ea
    ∧ eliminate_symbol b symbol = Ok eb
    ∧ ∀ values2, values2 ∈ product [0; 1] (length (symbols a) - 1) →
        (forbids e values2
         ↔ (forbids a (completion k 0 values2)
            ∨ forbids b (completion k 0 values2))
           ∧ (forbids a (completion k 1 values2)
              ∨ forbids b (completion k 1 values2)))
        ∧ (forbids ea values2 ∨ forbids eb values2 → forbids e values2).
Proof.
  intros Ha Hb Hsym Hdistinct Hk.
  destruct (equation_conjunction_inv a b Ha Hb Hsym)
    as (ab & Hab & Hs & Hkeys & Hinv & Hget).
  destruct (eliminate_symbol_forbids ab symbol k)
    as (e & He & _ & _ & _ & Hfe); [apply Hinv | by rewrite Hs..|].
  destruct (eliminate_symbol_forbids a symbol k)
    as (ea & Hea & _ & _ & _ & Hfa); [apply Ha | done..|].
  destruct (eliminate_symbol_forbids b symbol k)
    as (eb & Heb & _ & _ & _ & Hfb); [apply Hb | by rewrite <- Hsym..|].
  exists ab, e, ea, eb. split_and!; try done.
  intros values2 Hv2.
  pose proof (lookup_lt_Some _ _ _ Hk) as Hlt.
  assert (Hor : ∀ c, c = 0 ∨ c = 1 →
            forbids ab (completion k c values2)
            ↔ forbids a (completion k c values2)
              ∨ forbids b (completion k c values2)).
  { intros c Hc. unfold forbids at 1. rewrite Hget, decide_True.
    - rewrite either_decide. case_decide; split; (done || tauto).
    - apply (exhaustive_elem a); [apply Ha|].
      by apply completion_product. }
  rewrite Hs in Hfe. rewrite <- Hsym in Hfb.
  rewrite (Hfe values2 Hv2), (Hfa values2 Hv2), (Hfb values2 Hv2).
  rewrite (Hor 0), (Hor 1) by auto. tauto.
Qed.

Lemma eliminate_conjunction_witness :
  ∃ ab e ea eb,
    equation_conjunction no_xs all_xs = Ok ab
    ∧ eliminate_symbol ab "x" = Ok e
    ∧ eliminate_symbol no_xs "x" = Ok ea
    ∧ eliminate_symbol all_xs "x" = Ok eb
    ∧ ∀ values2, values2 ∈ product [0; 1] 0 →
        (forbids e values2
         ↔ (forbids no_xs (completion 0 0 values2)
            ∨ forbids all_xs (completion 0 0 values2))
           ∧ (forbids no_xs (completion 0 1 values2)
              ∨ forbids all_xs (completion 0 1 values2)))
        ∧ (forbids ea values2 ∨ forbids eb values2 → forbids e values2).
Proof.
  apply (eliminate_conjunction no_xs all_xs "x" 0).
  - apply Equation_inv_intro; reflexivity.
  - apply Equation_inv_intro; reflexivity.
  - reflexivity.
  - apply (bool_decide_unpack _). vm_compute. exact I.
  - reflexivity.
Defined.

End EliminatorLaws.

(** * Eliminating two symbols *)

Section EliminatorCommutes.
Implicit Types (eq : Equation) (x y : Symbol) (i j d : nat) (v : list Z).

Lemma completion_comm i d (b1 b2 : Z) : ∀ v,
  (i + d ≤ length v)%nat →
  completion i b1 (completion (i + d) b2 v)
  = completion (S (i + d)) b2 (completion i b1 v).
Proof.
  induction i as [|i IH]; intros v Hlen; [done|].
  destruct v as [|a v]; [simpl in Hlen; lia|].
  change (completion (S i + d) b2 (a :: v))
    with (a :: completion (i + d) b2 v).
  change (completion (S i) b1 (a :: completion (i + d) b2 v))
    with (a :: completion i b1 (completion (i + d) b2 v)).
  change (completion (S i) b1 (a :: v)) with (a :: completion i b1 v).
  change (completion (S (S i + d)) b2 (a :: completion i b1 v))
    with (a :: completion (S (i + d)) b2 (completion i b1 v)).
  f_equal. apply IH. simpl in Hlen. lia.
Qed.

Lemma delete_delete_comm {A} i d : ∀ l : list A,
  delete (i + d)%nat (delete i l) = delete i (delete (S (i + d)) l).
Proof.
  induction i as [|i IH]; intros [|a l]; try done.
  simpl. f_equal. apply IH.
Qed.

(** Two exhaustive tables of 0/1 moduli over the same symbols that forbid
    the same assignments are the same equation. *)
Lemma Equation_eq_forbids e1 e2 :
  Equation_inv e1 → Equation_inv e2 → symbols e1 = symbols e2 →
  (∀ v, v ∈ product [0; 1] (length (symbols e1)) →
        forbids e1 v ↔ forbids e2 v) →
  Equation_eq e1 e2.
Proof.
  intros [Hex1 Hb1] [Hex2 Hb2] Hsym Hsame. split; [done|]. intros v.
  pose proof (same_keys e1 e2 Hex1 Hex2 Hsym v) as Hkeys.
  destruct (decide (v ∈ Dict.keys (moduli e1))) as [Hin|Hnin].
  - pose proof (proj1 (exhaustive_elem e1 v Hex1) Hin) as Hv.
    specialize (Hsame v Hv). unfold forbids in Hsame.
    destruct (proj2 (DictFacts.get_is_Some v (moduli e1)) Hin) as [m1 H1].
    destruct (proj2 (DictFacts.get_is_Some v (moduli e2)) (proj1 Hkeys Hin))
      as [m2 H2].
    rewrite H1, H2 in Hsame |- *.
    destruct (boolean_moduli_get e1 v m1 Hb1 H1) as [-> | ->],
             (boolean_moduli_get e2 v m2 Hb2 H2) as [-> | ->];
      try done.
    + by destruct (proj2 Hsame eq_refl).
    + by destruct (proj1 Hsame eq_refl).
  - rewrite (proj2 (DictFacts.get_None v (moduli e1)) Hnin).
    symmetry. apply DictFacts.get_None. by rewrite <- Hkeys.
Qed.

Lemma eliminate_symbol_commute_lt eq x y i d :
  exhaustive eq → NoDup (symbols eq) →
  symbols eq !! i = Some x → symbols eq !! S (i + d) = Some y →
  ∃ ex exy ey eyx,
    eliminate_symbol eq x = Ok ex ∧ eliminate_symbol ex y = Ok exy
    ∧ eliminate_symbol eq y = Ok ey ∧ eliminate_symbol ey x = Ok eyx
    ∧ Equation_eq exy eyx.
Proof.
  intros Hex Hdistinct Hi Hj.
  pose proof (lookup_lt_Some _ _ _ Hj) as Hlt.
  destruct (eliminate_symbol_forbids eq x i Hex Hdistinct Hi)
    as (ex & Hex_ok & Hsx & Hexx & Hbx & Hfx).
  destruct (eliminate_symbol_forbids eq y (S (i + d)) Hex Hdistinct Hj)
    as (ey & Hey_ok & Hsy & Hexy & Hby & Hfy).
  assert (Hlx : length (symbols ex) = (length (symbols eq) - 1)%nat).
  { rewrite Hsx, length_delete; [done|]. by exists x. }
  assert (Hly : length (symbols ey) = (length (symbols eq) - 1)%nat).
  { rewrite Hsy, length_delete; [done|]. by exists y. }
  destruct (eliminate_symbol_forbids ex y (i + d))
    as (exy & Hexy_ok & Hsxy & Hexxy & Hbxy & Hfxy); [done | |  |].
  { rewrite Hsx. eapply sublist_NoDup; [done | apply sublist_delete]. }
  { rewrite Hsx, list_lookup_delete_ge by lia. done. }
  destruct (eliminate_symbol_forbids ey x i)
    as (eyx & Heyx_ok & Hsyx & Hexyx & Hbyx & Hfyx); [done | |  |].
  { rewrite Hsy. eapply sublist_NoDup; [done | apply sublist_delete]. }
  { rewrite Hsy, list_lookup_delete_lt by lia. done. }
  exists ex, exy, ey, eyx. split_and!; try done.
  apply Equation_eq_forbids; [done | done | |].
  - by rewrite Hsxy, Hsyx, Hsx, Hsy, delete_delete_comm.
  - intros v Hv.
    assert (Hlxy : length (symbols exy) = (length (symbols eq) - 1 - 1)%nat).
    { rewrite Hsxy, length_delete, Hlx; [done|].
      apply lookup_lt_is_Some. lia. }
    rewrite Hlxy in Hv. rewrite Hlx in Hfxy. rewrite Hly in Hfyx.
    pose proof Hv as [Hlen _]%elem_of_product.
    rewrite (Hfxy v Hv), (Hfyx v Hv).
    assert (Hcx : ∀ c, c = 0 ∨ c = 1 →
              completion (i + d) c v
              ∈ product [0; 1] (length (symbols eq) - 1)).
    { intros c Hc. apply completion_product; [done | lia | done]. }
    assert (Hcy : ∀ c, c = 0 ∨ c = 1 →
              completion i c v ∈ product [0; 1] (length (symbols eq) - 1)).
    { intros c Hc. apply completion_product; [done | lia | done]. }
    rewrite (Hfx _ (Hcx 0 (or_introl eq_refl))),
            (Hfx _ (Hcx 1 (or_intror eq_refl))),
            (Hfy _ (Hcy 0 (or_introl eq_refl))),
            (Hfy _ (Hcy 1 (or_intror eq_refl))).
    rewrite !completion_comm by lia. tauto.
Qed.

Lemma Equation_eq_sym e1 e2 : Equation_eq e1 e2 → Equation_eq e2 e1.
Proof. intros [Hs Hg]. split; [done|]. intros v. by rewrite Hg. Qed.

(** X20. Eliminations commute: from an exhaustive table over distinct
    symbols, eliminating [x] and then [y] succeeds and gives the same
    equation as eliminating [y] and then [x]. *)
Theorem eliminate_symbol_commute eq x y :
  exhaustive eq → NoDup (symbols eq) →
  x ∈ symbols eq → y ∈ symbols eq → x ≠ y →
  ∃ ex exy ey eyx,
    eliminate_symbol eq x = Ok ex ∧ eliminate_symbol ex y = Ok exy
    ∧ eliminate_symbol eq y = Ok ey ∧ eliminate_symbol ey x = Ok eyx
    ∧ Equation_eq exy eyx.
Proof.
  intros Hex Hdistinct [i Hi]%list_elem_of_lookup [j Hj]%list_elem_of_lookup Hne.
  destruct (lt_eq_lt_dec i j) as [[Hlt | ->] | Hgt].
  - replace j with (S (i + (j - i - 1)))%nat in Hj by lia.
    by eapply eliminate_symbol_commute_lt.
  - congruence.
  - replace i with (S (j + (i - j - 1)))%nat in Hi by lia.
    destruct (eliminate_symbol_commute_lt eq y x _ _ Hex Hdistinct Hj Hi)
      as (ey & eyx & ex & exy & H1 & H2 & H3 & H4 & Heq).
    exists ex, exy, ey, eyx. split_and!; try done.
    by apply Equation_eq_sym.
Qed.

Lemma eliminate_symbol_commute_witness :
  ∃ ex exy ey eyx,
    eliminate_symbol barbara_conclusion "z" = Ok ex
    ∧ eliminate_symbol ex "x" = Ok exy
    ∧ eliminate_symbol barbara_conclusion "x" = Ok ey
    ∧ eliminate_symbol ey "z" = Ok eyx
    ∧ Equation_eq exy eyx.
Proof.
  apply (eliminate_symbol_commute barbara_conclusion "z" "x").
  - unfold exhaustive. simpl. reflexivity.
  - apply (bool_decide_unpack _). vm_compute. exact I.
  - apply list_elem_of_In. simpl. tauto.
  - apply list_elem_of_In. simpl. tauto.
  - discriminate.
Defined.

End EliminatorCommutes.

(** * The terms of a rendering *)

Section Minterms.
Implicit Types (variables : list Symbol) (values : list Z).

Lemma repr_right_nested t ts :
  repr (right_nested t ts)
  = repr t +:+ fold_right (λ u text, repr u +:+ text) "" ts.
Proof.
  revert t. induction ts as [|u ts IH]; intros t; simpl.
  - by rewrite StrFacts.app_nil_r.
  - by rewrite IH.
Qed.

Lemma repr_term_literals variables : ∀ values,
  repr_term variables values
  = fold_right (λ u text, repr u +:+ text) ""
      (zip_with literal variables values).
Proof.
  intros values. unfold repr_term.
  rewrite (fold_left_ext_in _
             (λ term sv, term +:+ repr (literal sv.1 sv.2)));
    [|intros term [x b] _; unfold literal; cbn [fst snd];
     destruct (b =? 1)%Z; reflexivity].
  rewrite (repr_term_fold (λ sv, repr (literal sv.1 sv.2))). simpl.
  revert values. induction variables as [|x variables IH];
    intros [|b values]; try done.
  simpl. by rewrite IH.
Qed.

Lemma repr_term_minterm variables values :
  variables ≠ [] → length values = length variables →
  repr_term variables values = repr (minterm variables values).
Proof.
  intros Hne Hlen. rewrite repr_term_literals. unfold minterm.
  destruct variables as [|x variables]; [done|].
  destruct values as [|b values]; [done|].
  simpl. by rewrite repr_right_nested.
Qed.

Lemma in_grammar_literal x (bit : Z) :
  in_grammar (SymbolFunction x) = true → in_grammar (literal x bit) = true.
Proof. unfold literal. by destruct (bit =? 1)%Z. Qed.

Lemma in_grammar_minterm variables : ∀ values,
  Forall (λ x, in_grammar (SymbolFunction x) = true) variables →
  variables ≠ [] → length values = length variables →
  in_grammar (minterm variables values) = true.
Proof.
  unfold minterm. induction variables as [|x variables IH];
    intros [|b values] Hall Hne Hlen; try done.
  apply Forall_cons in Hall as [Hx Hall].
  destruct variables as [|x' variables].
  - destruct values; [|done]. by apply in_grammar_literal.
  - destruct values as [|b' values]; [done|].
    specialize (IH (b' :: values) Hall).
    cbn [zip_with nest right_nested in_grammar] in IH |- *.
    rewrite in_grammar_literal by done.
    apply IH; [done|]. simpl in Hlen |- *. lia.
Qed.

Lemma fold_insert_other (pairs : list (Symbol * Z)) :
  ∀ (m : gmap string Z) x,
  x ∉ pairs.*1 → fold_left (λ m p, <[p.1 := p.2]> m) pairs m !! x = m !! x.
Proof.
  induction pairs as [|[k w] pairs IH]; intros m x Hx; [done|].
  rewrite fmap_cons, not_elem_of_cons in Hx. destruct Hx as [Hne Hx].
  simpl. rewrite IH by done. by rewrite lookup_insert_ne.
Qed.

(** With distinct symbols, the value map gives each symbol the value at
    its position. *)
Lemma value_map_bindings variables : ∀ values (m : gmap string Z),
  NoDup variables → length values = length variables →
  Forall2
    (λ x bit,
       fold_left (λ m p, <[p.1 := p.2]> m) (zip variables values) m !! x
       = Some bit)
    variables values.
Proof.
  induction variables as [|x variables IH];
    intros [|b values] m Hnd Hlen; try done.
  apply NoDup_cons in Hnd as [Hx Hnd]. constructor.
  - simpl. rewrite fold_insert_other; [by rewrite lookup_insert_eq|].
    intros (p & -> & Hp)%list_elem_of_fmap. apply Hx.
    destruct p as [k w]. by apply elem_of_zip_l in Hp.
  - apply IH; [done|]. simpl in Hlen. lia.
Qed.

Lemma call_literal x (bit bit' : Z) (m : gmap string Z) :
  m !! x = Some bit' → bit = 0 ∨ bit = 1 → bit' = 0 ∨ bit' = 1 →
  call (literal x bit) m = Ok (if decide (bit' = bit) then 1 else 0).
Proof.
  intros Hx [-> | ->] [-> | ->]; unfold literal; simpl; by rewrite Hx.
Qed.

Lemma call_minterm (m : gmap string Z) variables : ∀ values values',
  variables ≠ [] →
  Forall2 (λ x bit', m !! x = Some bit') variables values' →
  length values = length variables →
  Forall (λ bit, bit = 0 ∨ bit = 1) values →
  Forall (λ bit, bit = 0 ∨ bit = 1) values' →
  call (minterm variables values) m
  = Ok (if decide (values' = values) then 1 else 0).
Proof.
  unfold minterm. induction variables as [|x variables IH];
    intros values values' Hne Hm Hlen Hbits Hbits'; [done|].
  destruct values as [|b values]; [done|].
  apply Forall2_cons_inv_l in Hm as (b' & values1' & Hx & Hm & ->).
  apply Forall_cons in Hbits as [Hb Hbits].
  apply Forall_cons in Hbits' as [Hb' Hbits'].
  pose proof (call_literal x b b' m Hx Hb Hb') as Hlit.
  destruct variables as [|x' variables].
  - destruct values; [|done]. apply Forall2_nil_inv_l in Hm as ->.
    cbn [zip_with nest right_nested]. rewrite Hlit.
    f_equal. repeat case_decide; congruence.
  - destruct values as [|b2 values]; [done|].
    specialize (IH (b2 :: values) values1').
    cbn [zip_with nest right_nested call] in IH |- *.
    rewrite Hlit, IH; [|done| done | simpl in Hlen |- *; lia | done..].
    cbn [mbind result_bind]. f_equal.
    repeat case_decide; first [reflexivity | congruence].
Qed.

(** X21. Each term of a rendering is the indicator of its assignment:
    over distinct one-letter symbols, the term [Equation.__repr__] writes
    for an assignment parses back to an expression, and under the value map
    of any assignment that expression evaluates to 1 when the assignment is
    the one of the term and to 0 otherwise. *)
Theorem repr_term_indicator variables values values' :
  Forall (λ x, in_grammar (SymbolFunction x) = true) variables →
  NoDup variables → variables ≠ [] →
  values ∈ product [0; 1] (length variables) →
  values' ∈ product [0; 1] (length variables) →
  ∃ e, parse (repr_term variables values) = Ok e
    ∧ call e (Dict.of_pairs (zip variables values'))
      = Ok (if decide (values' = values) then 1 else 0).
Proof.
  intros Hletters Hnd Hne [Hlen Hbits]%elem_of_product_bits
    [Hlen' Hbits']%elem_of_product_bits.
  exists (reassociate (minterm variables values)). split.
  - rewrite repr_term_minterm by done.
    apply parse_repr_reassociate. by apply in_grammar_minterm.
  - rewrite call_reassociate.
    apply call_minterm; try done.
    by apply value_map_bindings.
Qed.

Lemma repr_term_indicator_witness :
  ∃ e, parse (repr_term ["x"; "y"; "z"] [0; 1; 1]) = Ok e
    ∧ call e (Dict.of_pairs (zip ["x"; "y"; "z"] [0; 1; 0]))
      = Ok (if decide ([0; 1; 0] = [0; 1; 1]) then 1 else 0).
Proof.
  apply (repr_term_indicator ["x"; "y"; "z"] [0; 1; 1] [0; 1; 0]).
  - repeat (apply Forall_cons; split; [reflexivity|]). apply Forall_nil_2.
  - apply (bool_decide_unpack _). vm_compute. exact I.
  - discriminate.
  - apply list_elem_of_In. simpl. tauto.
  - apply list_elem_of_In. simpl. tauto.
Defined.

End Minterms.
